(** * nuclide-commons/process.js: process tree enumeration and termination,
      output multiplexing and exit classification.

    The development follows [modules/nuclide-commons/process.js].  JavaScript
    strings are modelled by [string]; [String.length] stands for [.length]
    (one character per code unit, which is also how the source counts the
    "bytes" of [maxBuffer] and [exitErrorBufferSize]).  Numbers that the code
    uses as integers (process ids, exit codes, sizes) are modelled by [Z]. *)

From stdpp Require Import gmap strings list sorting pretty.
From Stdlib Require Import ZArith Ascii.

(** ** Process tree enumerator *)

(** [ProcessInfo]: one row of the process table. *)
Record ProcessInfo := {
  parentPid : Z;
  pid : Z;
  command : string;
  commandWithArgs : string;
}.

(** Modelled from the spec: [MultiMap] of [./collection], whose source is
    missing; the specification calls it the "parent→children multimap".
    [add] appends a value under a key, [get] returns the values of a key
    (none when the key is absent), in insertion order.  Every row of a
    snapshot is a distinct object, so the underlying sets never merge two
    rows. *)
Definition MultiMap_add {V} (key : Z) (value : V)
    (m : gmap Z (list V)) : gmap Z (list V) :=
  <[key := default [] (m !! key) ++ [value]]> m.

Definition MultiMap_get {V} (key : Z) (m : gmap Z (list V)) : list V :=
  default [] (m !! key).

(** The [processes.forEach] pass of [getDescendantsOfProcess]: the last row
    whose pid is the requested one becomes [rootProcessInfo], and every row
    is filed under its parent. *)
Definition indexProcesses (rootPid : Z) (processes : list ProcessInfo)
    : option ProcessInfo * gmap Z (list ProcessInfo) :=
  foldl (λ st info,
           (if bool_decide (pid info = rootPid) then Some info else st.1,
            MultiMap_add (parentPid info) info st.2))
        (None, ∅) processes.

(** The [for (let i = 0; i < descendants.length; i++)] loop.  The array grows
    while it is walked, so the loop need not end: [fuel] bounds the number of
    iterations and [None] means the bound was hit. *)
Fixpoint walkDescendants (fuel : nat)
    (pidToChildren : gmap Z (list ProcessInfo))
    (i : nat) (descendants : list ProcessInfo) : option (list ProcessInfo) :=
  match fuel with
  | O => None
  | S fuel' =>
      match descendants !! i with
      | None => Some descendants
      | Some info =>
          walkDescendants fuel' pidToChildren (S i)
            (descendants ++ MultiMap_get (pid info) pidToChildren)
      end
  end.

(** [getDescendantsOfProcess(pid)], with the result of [psTree()] given as
    [processes]. *)
Definition getDescendantsOfProcess (fuel : nat) (processes : list ProcessInfo)
    (rootPid : Z) : option (list ProcessInfo) :=
  let '(rootProcessInfo, pidToChildren) := indexProcesses rootPid processes in
  let descendants :=
    match rootProcessInfo with None => [] | Some r => [r] end in
  walkDescendants fuel pidToChildren 0 descendants.

(** [getChildrenOfProcess(processId)] on a snapshot. *)
Definition getChildrenOfProcess (processes : list ProcessInfo)
    (processId : Z) : list ProcessInfo :=
  filter (λ processInfo, parentPid processInfo = processId) processes.

(** ** Parsing the process table *)

Definition newline : ascii := "010"%char.

(** The characters of [\s] and of [trim] among the first 256 code units. *)
Definition isSpace (c : ascii) : bool :=
  bool_decide (nat_of_ascii c ∈ [9; 10; 11; 12; 13; 32; 160]).

Fixpoint dropSpaces (s : list ascii) : list ascii :=
  match s with
  | c :: rest => if isSpace c then dropSpaces rest else s
  | [] => []
  end.

(** [s.trim()] *)
Definition trim (s : string) : string :=
  String.string_of_list_ascii
    (rev (dropSpaces
       (rev (dropSpaces (String.list_ascii_of_string s))))).

(** [s.split(/\n|\r\n/)]: [current] is the piece being read. *)
Fixpoint splitNewlines (current : list ascii) (s : list ascii)
    : list string :=
  match s with
  | [] => [String.string_of_list_ascii current]
  | c :: rest =>
      if Ascii.eqb c "010"
      then String.string_of_list_ascii current :: splitNewlines [] rest
      else
        match rest with
        | c' :: rest' =>
            if Ascii.eqb c "013" && Ascii.eqb c' "010"
            then String.string_of_list_ascii current ::
                 splitNewlines [] rest'
            else splitNewlines (current ++ [c]) rest
        | [] => splitNewlines (current ++ [c]) rest
        end
  end.

(** [s.split(/\s+/)]: [inSeparator] says that the character before was part
    of a separator. *)
Fixpoint splitSpaces (current : list ascii) (inSeparator : bool)
    (s : list ascii) : list string :=
  match s with
  | [] => [String.string_of_list_ascii current]
  | c :: rest =>
      if isSpace c
      then if inSeparator then splitSpaces current true rest
           else String.string_of_list_ascii current ::
                splitSpaces [] true rest
      else splitSpaces (current ++ [c]) false rest
  end.

Definition digitValue (c : ascii) : option Z :=
  let n := nat_of_ascii c in
  if bool_decide (48 ≤ n ≤ 57) then Some (Z.of_nat n - 48)%Z else None.

(** The value of the longest prefix of decimal digits; [None] when there is
    no digit. *)
Fixpoint parseDigits (value : option Z) (s : list ascii) : option Z :=
  match s with
  | [] => value
  | c :: rest =>
      match digitValue c with
      | Some d => parseDigits (Some (10 * default 0%Z value + d)%Z) rest
      | None => value
      end
  end.

(** [parseInt(s, 10)]; [None] is [NaN], which is also the result for
    [undefined].  (The source computes in floating point; the model is exact
    for all integers.) *)
Definition parseInt10 (s : option string) : option Z :=
  match s with
  | None => None
  | Some s =>
      match dropSpaces (String.list_ascii_of_string s) with
      | c :: rest =>
          if Ascii.eqb c "-" then Z.opp <$> parseDigits None rest
          else if Ascii.eqb c "+" then parseDigits None rest
          else parseDigits None (c :: rest)
      | [] => None
      end
  end.

(** [columns.join(' ')] *)
Fixpoint joinSpace (columns : list string) : string :=
  match columns with
  | [] => ""
  | [column] => column
  | column :: rest => column +:+ " " +:+ joinSpace rest
  end.

(** The lines of a table without its header, and each line in columns. *)
Definition tableLines (table : string) : list string :=
  drop 1 (splitNewlines [] (String.list_ascii_of_string (trim table))).

Definition columnsOf (line : string) : list string :=
  splitSpaces [] false (String.list_ascii_of_string (trim line)).

(** The [Map] from pid to command line built from [argsOutput]; entries
    whose pid is [NaN] are left out (only a [NaN] pid could look them up). *)
Definition argsMap (argsOutput : option string) : gmap Z string :=
  match argsOutput with
  | None => ∅
  | Some output =>
      foldl (λ (withArgs : gmap Z string) line,
               let columns := columnsOf line in
               match parseInt10 (columns !! 0) with
               | Some p => <[p := joinSpace (drop 1 columns)]> withArgs
               | None => withArgs
               end)
            ∅ (tableLines output)
  end.

(** [parsePsOutput(psOutput, argsOutput)].  Numbers are modelled by [Z]: the
    result is [None] when some [parseInt] of a row gives [NaN]. *)
Definition parsePsOutput (psOutput : string) (argsOutput : option string)
    : option (list ProcessInfo) :=
  let withArgs := argsMap argsOutput in
  mapM (λ line,
          let columns := columnsOf line in
          p ← parseInt10 (columns !! 1);
          parent ← parseInt10 (columns !! 0);
          let command := joinSpace (drop 2 columns) in
          Some {| command := command; parentPid := parent; pid := p;
                  commandWithArgs := default command (withArgs !! p) |})
       (tableLines psOutput).

(** The output of [ps -A -o ppid,pid,comm] with two processes, and of
    [ps -A -ww -o pid,args] for them. *)
Definition psExample : string :=
  " PPID   PID COMM" +:+ String newline
  "    1   100 bash" +:+ String newline
  "  100   200 node" +:+ String newline "".

Definition psArgsExample : string :=
  "  PID ARGS" +:+ String newline
  "  100 bash -l" +:+ String newline
  "  200 node server.js  --port 80" +:+ String newline "".

(** ** Termination of processes *)

(** A Node system error, as thrown by [process.kill] or handed to the
    callback of [child_process.exec]. *)
Record SystemError := {
  code : string;
  syscall : string;
}.

(** Outcome of a call that may throw. *)
Inductive Outcome (A : Type) :=
| Returned (a : A)
| Thrown (e : SystemError).
Arguments Returned {A} a.
Arguments Thrown {A} e.

(** The operating system as seen by [process.kill(pid)]: given the pids that
    were signalled so far, the call on [pid] either succeeds ([None]) or
    throws a system error. *)
Definition KillOracle := list Z → Z → option SystemError.

(** [killPid(pid)]; the first component is the log of [process.kill] calls. *)
Definition killPid (process_kill : KillOracle) (signalled : list Z) (p : Z)
    : list Z * Outcome unit :=
  match process_kill signalled p with
  | None => (signalled ++ [p], Returned ())
  | Some err =>
      if bool_decide (code err ≠ "ESRCH")
      then (signalled ++ [p], Thrown err)
      else (signalled ++ [p], Returned ())
  end.

(** The [for (const info of descendants.reverse())] loop of
    [killUnixProcessTree]: a throwing [killPid] ends it. *)
Fixpoint killEach (process_kill : KillOracle) (signalled : list Z)
    (infos : list ProcessInfo) : list Z * Outcome unit :=
  match infos with
  | [] => (signalled, Returned ())
  | info :: rest =>
      match killPid process_kill signalled (pid info) with
      | (signalled', Returned _) => killEach process_kill signalled' rest
      | (signalled', Thrown e) => (signalled', Thrown e)
      end
  end.

(** [killUnixProcessTree(proc)], for [proc.pid = procPid]. *)
Definition killUnixProcessTree (fuel : nat) (process_kill : KillOracle)
    (processes : list ProcessInfo) (procPid : Z)
    : option (list Z * Outcome unit) :=
  match getDescendantsOfProcess fuel processes procPid with
  | None => None
  | Some descendants =>
      Some (killEach process_kill [] (reverse descendants))
  end.

(** Settlement of a promise. *)
Inductive Settled (A E : Type) :=
| Resolved (a : A)
| Rejected (e : E).
Arguments Resolved {A E} a.
Arguments Rejected {A E} e.

(** The command line [`taskkill /pid ${pid} /T /F`]. *)
Definition taskkillCommand (p : Z) : string :=
  "taskkill /pid " +:+ pretty p +:+ " /T /F".

(** [killWindowsProcessTree(pid)]: [exec] is [child_process.exec], reduced to
    the error it hands to the callback ([None] for [null]). *)
Definition killWindowsProcessTree (exec : string → option SystemError)
    (p : Z) : Settled unit (option SystemError) :=
  let error := exec (taskkillCommand p) in
  match error with
  | None => Rejected error
  | Some _ => Resolved ()
  end.

(** ** Reference notions for the process tree *)

(** The rows reached after [n] parent→child steps from the rows [roots]. *)
Fixpoint generation (processes : list ProcessInfo) (n : nat)
    (roots : list ProcessInfo) : list ProcessInfo :=
  match n with
  | O => roots
  | S n' =>
      generation processes n' roots ≫=
        (λ info, getChildrenOfProcess processes (pid info))
  end.

(** Generations [0 .. n-1], one after the other. *)
Definition generations (processes : list ProcessInfo) (n : nat)
    (roots : list ProcessInfo) : list ProcessInfo :=
  concat ((λ k, generation processes k roots) <$> seq 0 n).

(** [depthOf processes root info d]: [info] is reached from [root] by a chain
    of [d] parent→child links of the snapshot. *)
Inductive depthOf (processes : list ProcessInfo) (root : ProcessInfo)
    : ProcessInfo → nat → Prop :=
| depth_root : depthOf processes root root 0
| depth_child info parent d :
    depthOf processes root parent d →
    info ∈ processes →
    parentPid info = pid parent →
    depthOf processes root info (S d).

(** The row that [getDescendantsOfProcess] takes for the root. *)
Definition rootProcessInfo (processes : list ProcessInfo) (rootPid : Z)
    : option ProcessInfo :=
  last (filter (λ info, pid info = rootPid) processes).


(** The depths that go with [generations]: [k] for every row of
    generation [k]. *)
Definition generationDepths (processes : list ProcessInfo) (n : nat)
    (roots : list ProcessInfo) : list nat :=
  concat ((λ k, replicate (length (generation processes k roots)) k)
            <$> seq 0 n).

(** ** Snapshots used as examples *)

(** Header [PPID PID COMM], rows [1 100 bash] and [100 200 node]. *)
Definition bashRow : ProcessInfo :=
  {| parentPid := 1; pid := 100; command := "bash";
     commandWithArgs := "bash" |}.
Definition nodeRow : ProcessInfo :=
  {| parentPid := 100; pid := 200; command := "node";
     commandWithArgs := "node" |}.
Definition bashNodeSnapshot : list ProcessInfo := [bashRow; nodeRow].

(** A chain root→A→B below the shell with pid 1. *)
Definition chainRoot : ProcessInfo :=
  {| parentPid := 1; pid := 100; command := "root";
     commandWithArgs := "root" |}.
Definition chainA : ProcessInfo :=
  {| parentPid := 100; pid := 200; command := "A"; commandWithArgs := "A" |}.
Definition chainB : ProcessInfo :=
  {| parentPid := 200; pid := 300; command := "B"; commandWithArgs := "B" |}.
Definition chainSnapshot : list ProcessInfo := [chainRoot; chainA; chainB].

(** A table with a row that is its own parent, as [wmic] reports the idle
    process of Windows (pid 0, parent pid 0). *)
Definition idleRow : ProcessInfo :=
  {| parentPid := 0; pid := 0; command := "System Idle Process";
     commandWithArgs := "System Idle Process" |}.
Definition smssRow : ProcessInfo :=
  {| parentPid := 4; pid := 400; command := "smss.exe";
     commandWithArgs := "smss.exe" |}.
Definition idleSnapshot : list ProcessInfo := [idleRow; smssRow].

(** An operating system on which every [process.kill] succeeds. *)
Definition killSucceeds : KillOracle := λ _ _, None.


(** ** Messages, errors and options of the output multiplexer *)

Inductive StreamName := Stdout | Stderr.

#[global] Instance StreamName_eq_dec : EqDecision StreamName.
Proof. solve_decision. Defined.

Definition streamName (name : StreamName) : string :=
  match name with Stdout => "stdout" | Stderr => "stderr" end.

(** [ProcessExitMessage] without its constant [kind]; [None] is [null]. *)
Record ProcessExitMessage := {
  exitCode : option Z;
  signal : option string;
}.

Inductive ProcessMessage :=
| StdoutMessage (data : string)
| StderrMessage (data : string)
| ExitMessage (event : ProcessExitMessage).

(** The errors an output stream ends with.  [ProcessExitError] carries
    [exitCode], [signal], [stderr] and the optional [stdout] (the process
    object, from which [command] and [args] are read, is left out). *)
Inductive ProcessError :=
| ProcessExitError (errExitCode : option Z) (errSignal : option string)
    (errStderr : string) (errStdout : option string)
| MaxBufferExceededError (name : string).

(** The message of a [MaxBufferExceededError]. *)
Definition maxBufferMessage (name : string) : string :=
  name +:+ " maxBuffer exceeded".

(** [ObserveProcessOptions], restricted to the options the modelled code
    reads; [None] is an absent (or null) option. *)
Record Options := {
  splitByLines : option bool;
  maxBuffer : option Z;
  exitErrorBufferSize : option Z;
  isExitError : option (ProcessExitMessage → bool);
  killTreeWhenDone : option bool;
  killTreeSignal : option string;
}.

Definition noOptions : Options :=
  {| splitByLines := None; maxBuffer := None; exitErrorBufferSize := None;
     isExitError := None; killTreeWhenDone := None; killTreeSignal := None |}.

(** [{...options, maxBuffer}] *)
Definition withMaxBuffer (m : option Z) (options : Options) : Options :=
  {| splitByLines := splitByLines options; maxBuffer := m;
     exitErrorBufferSize := exitErrorBufferSize options;
     isExitError := isExitError options;
     killTreeWhenDone := killTreeWhenDone options;
     killTreeSignal := killTreeSignal options |}.

Definition withExitErrorBufferSize (n : option Z) (options : Options)
    : Options :=
  {| splitByLines := splitByLines options; maxBuffer := maxBuffer options;
     exitErrorBufferSize := n;
     isExitError := isExitError options;
     killTreeWhenDone := killTreeWhenDone options;
     killTreeSignal := killTreeSignal options |}.

Definition DEFAULT_MAX_BUFFER : Z := 100 * 1024 * 1024.

(** [x || d] on an optional number: [null], [undefined] and [0] are falsy. *)
Definition orDefault (x : option Z) (d : Z) : Z :=
  match x with
  | Some v => if bool_decide (v = 0%Z) then d else v
  | None => d
  end.

Definition isExitErrorDefault (exit : ProcessExitMessage) : bool :=
  negb (bool_decide (exitCode exit = Some 0%Z)).

Definition isRealExit (event : ProcessExitMessage) : bool :=
  negb (bool_decide (signal event = Some "SIGUSR1")).

(** ** Strings *)

(** [s.length] *)
Definition strlen (s : string) : Z := Z.of_nat (String.length s).

(** [s.slice(0, end)]: a negative [end] counts from the end of [s]. *)
Definition slice0 (s : string) (end_ : Z) : string :=
  if bool_decide (end_ < 0)%Z
  then String.substring 0 (Z.to_nat (strlen s + end_)) s
  else String.substring 0 (Z.to_nat end_) s.

(** Concatenation of a list of strings. *)
Definition joinAll (l : list string) : string := foldr String.append "" l.


(** ** Stream primitives *)

(** Modelled from the spec: [takeWhileInclusive] of [./observable], whose
    source is missing ("take-while-inclusive" termination): values
    pass while the predicate holds, the first value that fails it passes too
    and ends the stream.  Observables are given by the list of values they
    deliver. *)
Fixpoint takeWhileInclusive {A} (predicate : A → bool) (l : list A) : list A :=
  match l with
  | [] => []
  | x :: l' =>
      if predicate x then x :: takeWhileInclusive predicate l' else [x]
  end.

(** The [scan] operator on the values delivered. *)
Fixpoint scan {A B} (f : B → A → B) (seed : B) (l : list A) : list B :=
  match l with
  | [] => []
  | x :: l' => let acc := f seed x in acc :: scan f acc l'
  end.

(** Modelled from the spec: [splitStream] of [./observable], whose source
    is missing ("split into line-delimited chunks").  [splitLines
    current value] gives the lines completed by [value], each with its
    newline, and the unfinished rest that is kept for the next value. *)
Fixpoint splitLines (current value : string) : list string * string :=
  match value with
  | EmptyString => ([], current)
  | String c rest =>
      if Ascii.eqb c newline
      then let '(lines, last) := splitLines "" rest in
           ((current +:+ String c "") :: lines, last)
      else splitLines (current +:+ String c "") rest
  end.

(** ** The output multiplexer *)

(** Modelled from the spec: [observeStream] of [./stream], whose source is
    missing; it delivers the ['data'] chunks of a pipe as strings and
    completes on ['end'].  What a spawned process does is given by the
    notifications of the child process in their order of arrival: data and
    end of [proc.stdout] and [proc.stderr], ['exit'] and ['close']. *)
Inductive ProcessEvent :=
| Data (name : StreamName) (data : string)
| End_ (name : StreamName)
| Exit (event : ProcessExitMessage)
| Close (event : ProcessExitMessage).

(** One of the two output pipes as [getOutputStream] watches it:
    [totalSize] of [limitBufferSize], the unfinished line [current] of
    [splitStream], and whether its observable has ended. *)
Record Pipe := {
  totalSize : Z;
  current : string;
  ended : bool;
}.

Definition newPipe : Pipe :=
  {| totalSize := 0; current := ""; ended := false |}.

Inductive Status :=
| Running
| Completed
| Errored (error : ProcessError).

(** A subscription to [getOutputStream(proc, options)]: the two pipes, the
    data of the [stderrEvents] delivered so far, the replay buffer of
    [closeEvents], the messages delivered to the subscriber and how the
    stream stands. *)
Record OutputStream := {
  stdoutPipe : Pipe;
  stderrPipe : Pipe;
  stderrEvents : list string;
  closeEvents : option (ProcessExitMessage + ProcessError);
  messages : list ProcessMessage;
  status : Status;
}.

Definition newOutputStream : OutputStream :=
  {| stdoutPipe := newPipe; stderrPipe := newPipe; stderrEvents := [];
     closeEvents := None; messages := []; status := Running |}.

Definition pipe (name : StreamName) (st : OutputStream) : Pipe :=
  match name with Stdout => stdoutPipe st | Stderr => stderrPipe st end.

Definition withPipe (name : StreamName) (p : Pipe) (st : OutputStream)
    : OutputStream :=
  {| stdoutPipe := match name with Stdout => p | Stderr => stdoutPipe st end;
     stderrPipe := match name with Stdout => stderrPipe st | Stderr => p end;
     stderrEvents := stderrEvents st; closeEvents := closeEvents st;
     messages := messages st; status := status st |}.

Definition toMessage (name : StreamName) (data : string) : ProcessMessage :=
  match name with
  | Stdout => StdoutMessage data
  | Stderr => StderrMessage data
  end.

(** Chunks of one pipe are delivered: they become messages, and those of
    stderr also feed [accumulatedStderr]. *)
Definition deliver (name : StreamName) (chunks : list string)
    (st : OutputStream) : OutputStream :=
  {| stdoutPipe := stdoutPipe st; stderrPipe := stderrPipe st;
     stderrEvents :=
       match name with
       | Stdout => stderrEvents st
       | Stderr => stderrEvents st ++ chunks
       end;
     closeEvents := closeEvents st;
     messages := messages st ++ (toMessage name <$> chunks);
     status := status st |}.

Definition withStatus (s : Status) (st : OutputStream) : OutputStream :=
  {| stdoutPipe := stdoutPipe st; stderrPipe := stderrPipe st;
     stderrEvents := stderrEvents st; closeEvents := closeEvents st;
     messages := messages st; status := s |}.

Definition withCloseEvents (r : ProcessExitMessage + ProcessError)
    (st : OutputStream) : OutputStream :=
  {| stdoutPipe := stdoutPipe st; stderrPipe := stderrPipe st;
     stderrEvents := stderrEvents st; closeEvents := Some r;
     messages := messages st; status := status st |}.

(** [limitBufferSize]: the new [totalSize] and whether the chunk makes the
    stream throw.  Without [maxBuffer] the stream is returned as it is. *)
Definition limitBufferSize (maxBuffer : option Z) (p : Pipe) (data : string)
    : Z * bool :=
  match maxBuffer with
  | None => (totalSize p, false)
  | Some m =>
      let total := (totalSize p + strlen data)%Z in
      (total, bool_decide (m < total)%Z)
  end.

(** [onEnd] of [splitStream]: the unfinished line, when there is one. *)
Definition onEnd (p : Pipe) : list string :=
  if String.eqb (current p) "" then [] else [current p].

(** A chunk of data on a pipe, through [limitBufferSize] and then [chunk]:
    the chunks passed on, the pipe afterwards, and whether [maxBuffer] was
    exceeded ([splitStream] passes its unfinished line on before the
    error). *)
Definition pipeData (byLines : bool) (maxBuffer : option Z) (p : Pipe)
    (data : string) : list string * Pipe * bool :=
  let '(total, exceeded) := limitBufferSize maxBuffer p data in
  if exceeded
  then (onEnd p, {| totalSize := total; current := ""; ended := true |}, true)
  else if byLines
  then let '(lines, rest) := splitLines (current p) data in
       (lines, {| totalSize := total; current := rest; ended := false |},
        false)
  else ([data],
        {| totalSize := total; current := current p; ended := false |},
        false).

(** [accumulatedStderr]: the values it delivers, given the data of the
    stderr events. *)
Definition accumulatedStderr (exitErrorBufferSize : Z)
    (stderrData : list string) : list string :=
  takeWhileInclusive (λ acc, bool_decide (strlen acc < exitErrorBufferSize)%Z)
    ("" :: scan (λ acc data, slice0 (acc +:+ data) exitErrorBufferSize)
             "" stderrData).

(** The value [withLatestFrom(accumulatedStderr)] pairs a close event with. *)
Definition latestStderr (exitErrorBufferSize : Z) (stderrData : list string)
    : string :=
  default "" (last (accumulatedStderr exitErrorBufferSize stderrData)).

(** The [map] of [closeEvents]: throw a [ProcessExitError] or pass the exit
    event on. *)
Definition classifyExit (isExitError : ProcessExitMessage → bool)
    (event : ProcessExitMessage) (stderr : string)
    : ProcessExitMessage + ProcessError :=
  if isExitError event
  then inr (ProcessExitError (exitCode event) (signal event) stderr None)
  else inl event.

(** [merge(stdoutEvents, stderrEvents).concat(closeEvents)]: once both pipes
    have ended, what [closeEvents] replays (now or later) ends the stream. *)
Definition concatCloseEvents (st : OutputStream) : OutputStream :=
  if ended (stdoutPipe st) && ended (stderrPipe st)
  then match closeEvents st with
       | Some (inl event) =>
           withStatus Completed
             {| stdoutPipe := stdoutPipe st; stderrPipe := stderrPipe st;
                stderrEvents := stderrEvents st;
                closeEvents := closeEvents st;
                messages := messages st ++ [ExitMessage event];
                status := status st |}
       | Some (inr error) => withStatus (Errored error) st
       | None => st
       end
  else st.

(** The options as [getOutputStream] reads them. *)
Definition chunkByLines (options : Options) : bool :=
  negb (bool_decide (splitByLines options = Some false)).

Definition exitErrorPredicate (options : Options)
    : ProcessExitMessage → bool :=
  default isExitErrorDefault (isExitError options).

Definition exitErrorBufferSizeOf (options : Options) : Z :=
  orDefault (exitErrorBufferSize options) 2000.

(** [getOutputStream]: how a subscription reacts to one notification of the
    process.  A stream that has ended reacts to nothing; so does a pipe
    that has ended, and [closeEvents] after its first real close. *)
Definition outputStep (options : Options) (st : OutputStream)
    (ev : ProcessEvent) : OutputStream :=
  match status st with
  | Running =>
      match ev with
      | Data name data =>
          if ended (pipe name st) then st
          else
            let '(chunks, p, exceeded) :=
              pipeData (chunkByLines options) (maxBuffer options)
                (pipe name st) data in
            let st' := withPipe name p (deliver name chunks st) in
            if exceeded
            then withStatus
                   (Errored (MaxBufferExceededError (streamName name))) st'
            else st'
      | End_ name =>
          if ended (pipe name st) then st
          else
            let p := pipe name st in
            concatCloseEvents
              (withPipe name
                 {| totalSize := totalSize p; current := ""; ended := true |}
                 (deliver name (onEnd p) st))
      | Exit _ => st
      | Close event =>
          match closeEvents st with
          | Some _ => st
          | None =>
              if isRealExit event
              then concatCloseEvents
                     (withCloseEvents
                        (classifyExit (exitErrorPredicate options) event
                           (latestStderr (exitErrorBufferSizeOf options)
                              (stderrEvents st)))
                        st)
              else st
          end
      end
  | _ => st
  end.

(** [getOutputStream(proc, options)], subscribed when [proc] was created,
    after the notifications [events]. *)
Definition getOutputStream (options : Options) (events : list ProcessEvent)
    : OutputStream :=
  foldl (outputStep options) newOutputStream events.

(** ** The process stream and [observeProcess] *)

(** A call [killProcess(proc, killTree, killTreeSignal)]. *)
Record KillRequest := {
  killTree : bool;
  killSignal : option string;
}.



(** A subscription to [observeProcess(command, args, options)] for a process
    that was spawned ([proc.pid] is not null), without [timeout] or [input]
    and not cancelled by the subscriber: the inner [getOutputStream], the
    flags [finished] and [wasKilled] of [createProcessStream], and the calls
    of [killProcess] made by its [finally]. *)
Record ProcessStream := {
  output : OutputStream;
  finished : bool;
  wasKilled : bool;
  killed : list KillRequest;
}.

Definition newProcessStream : ProcessStream :=
  {| output := newOutputStream; finished := false; wasKilled := false;
     killed := [] |}.

(** [flatMap]: an error of the inner stream is the error of the whole; the
    whole completes when the process stream (on ['exit']) and the inner
    stream have both completed. *)
Definition processStatus (ps : ProcessStream) : Status :=
  match status (output ps) with
  | Errored error => Errored error
  | Completed => if finished ps then Completed else Running
  | Running => Running
  end.

Definition observeStep (options : Options) (ps : ProcessStream)
    (ev : ProcessEvent) : ProcessStream :=
  match processStatus ps with
  | Running =>
      let finished' :=
        finished ps ||
        match ev with Exit event => isRealExit event | _ => false end in
      let output' := outputStep options (output ps) ev in
      match status output' with
      | Errored _ =>
          if negb (wasKilled ps) && negb finished'
          then {| output := output'; finished := finished'; wasKilled := true;
                  killed := killed ps ++
                    [{| killTree := default false (killTreeWhenDone options);
                        killSignal := killTreeSignal options |}] |}
          else {| output := output'; finished := finished';
                  wasKilled := wasKilled ps; killed := killed ps |}
      | _ => {| output := output'; finished := finished';
                wasKilled := wasKilled ps; killed := killed ps |}
      end
  | _ => ps
  end.

Definition observeProcess (options : Options) (events : list ProcessEvent)
    : ProcessStream :=
  foldl (observeStep options) newProcessStream events.

(** ** [runCommandDetailed] and [runCommand] *)

Record DetailedProcessResult := {
  stdout : string;
  stderr : string;
  resultExitCode : option Z;
}.

(** What an observable that delivers at most one value has done. *)
Inductive Emission (A : Type) :=
| Pending
| Emitted (a : A)
| Failed (error : ProcessError).
Arguments Pending {A}.
Arguments Emitted {A} a.
Arguments Failed {A} error.

(** The reducer of [runCommandDetailed] on the messages of the process. *)
Definition accumulate (acc : DetailedProcessResult) (event : ProcessMessage)
    : DetailedProcessResult :=
  match event with
  | StdoutMessage data =>
      {| stdout := stdout acc +:+ data; stderr := stderr acc;
         resultExitCode := resultExitCode acc |}
  | StderrMessage data =>
      {| stdout := stdout acc; stderr := stderr acc +:+ data;
         resultExitCode := resultExitCode acc |}
  | ExitMessage event =>
      {| stdout := stdout acc; stderr := stderr acc;
         resultExitCode := exitCode event |}
  end.

(** [runCommandDetailed]: [catch] turns a [ProcessExitError] into a last
    event, on which the reducer throws a new [ProcessExitError] with the
    accumulated output; any other error passes. *)
Definition runCommandDetailed (options : Options)
    (events : list ProcessEvent) : Emission DetailedProcessResult :=
  let maxBuffer := orDefault (maxBuffer options) DEFAULT_MAX_BUFFER in
  let ps := observeProcess (withMaxBuffer (Some maxBuffer) options) events in
  let acc :=
    foldl accumulate {| stdout := ""; stderr := ""; resultExitCode := None |}
      (messages (output ps)) in
  match processStatus ps with
  | Running => Pending
  | Completed => Emitted acc
  | Errored (ProcessExitError exitCode signal _ _) =>
      Failed (ProcessExitError exitCode signal (stderr acc)
                (Some (stdout acc)))
  | Errored error => Failed error
  end.


(** ** Reference notions for process runs *)

(** The data a list of notifications carries for the pipe [name]. *)
Definition dataOf (name : StreamName) (events : list ProcessEvent)
    : list string :=
  events ≫= (λ ev,
    match ev with
    | Data n data => if decide (n = name) then [data] else []
    | _ => []
    end).

(** The cumulative size of that data. *)
Definition bytesOf (name : StreamName) (events : list ProcessEvent) : Z :=
  strlen (joinAll (dataOf name events)).




Definition realExitEvent (ev : ProcessEvent) : bool :=
  match ev with
  | Exit event => isRealExit event
  | _ => false
  end.

Definition dataEvents (chunks : list (StreamName * string))
    : list ProcessEvent :=
  (λ chunk, Data chunk.1 chunk.2) <$> chunks.

(** The notifications of a process that writes [early], exits with [event],
    has [late] still drained from its pipes, and is then closed. *)
Definition processRun (early : list (StreamName * string))
    (event : ProcessExitMessage) (late : list (StreamName * string))
    : list ProcessEvent :=
  dataEvents early ++ [Exit event] ++ dataEvents late ++
  [End_ Stdout; End_ Stderr; Close event].

(** The data of the messages of one pipe. *)
Definition chunksOf (name : StreamName) (msgs : list ProcessMessage)
    : list string :=
  msgs ≫= (λ msg,
    match msg, name with
    | StdoutMessage data, Stdout => [data]
    | StderrMessage data, Stderr => [data]
    | _, _ => []
    end).

(** The request [createProcessStream] makes of [killProcess]. *)
Definition killRequestOf (options : Options) : KillRequest :=
  {| killTree := default false (killTreeWhenDone options);
     killSignal := killTreeSignal options |}.


(** ** Process runs used as examples *)

Definition exitWith (c : Z) : ProcessExitMessage :=
  {| exitCode := Some c; signal := None |}.


(** Six characters on stderr and exit code 1, observed with
    [exitErrorBufferSize = 3]. *)
Definition abcdefRun : list ProcessEvent :=
  processRun [(Stderr, "abcd"); (Stderr, "ef")] (exitWith 1) [].

Definition bufferOfThree : Options :=
  withExitErrorBufferSize (Some 3%Z) noOptions.


(** What the subscriber has been given of one pipe, with the unfinished
    line that [splitStream] still holds. *)
Definition textOf (name : StreamName) (st : OutputStream) : string :=
  joinAll (chunksOf name (messages st)) +:+ current (pipe name st).



(** What holds of a stream after the notifications [seen]: a pipe never
    counts more than it was sent, and a [MaxBufferExceededError] means that
    the pipe it names was sent more than [maxBuffer]. *)
Definition LimitInvariant (options : Options) (seen : list ProcessEvent)
    (st : OutputStream) : Prop :=
  (∀ name, (totalSize (pipe name st) ≤ bytesOf name seen)%Z) ∧
  (∀ s, closeEvents st ≠ Some (inr (MaxBufferExceededError s))) ∧
  (∀ s, status st = Errored (MaxBufferExceededError s) →
     ∃ name m, maxBuffer options = Some m ∧ s = streamName name ∧
               (m < bytesOf name seen)%Z).



(** ** Reference notions for the invariants of the output stream *)

(** The first ['close'] notification that [isRealExit] lets through. *)
Fixpoint firstRealClose (events : list ProcessEvent)
    : option ProcessExitMessage :=
  match events with
  | [] => None
  | Close event :: rest =>
      if isRealExit event then Some event else firstRealClose rest
  | _ :: rest => firstRealClose rest
  end.

Definition isExitMessage (msg : ProcessMessage) : bool :=
  match msg with ExitMessage _ => true | _ => false end.

(** No exit message among [msgs]. *)
Definition noExit (msgs : list ProcessMessage) : Prop :=
  Forall (λ msg, isExitMessage msg = false) msgs.

(** What holds of a subscription to [getOutputStream] after the
    notifications [events]. *)
Definition StreamInvariant (options : Options) (events : list ProcessEvent)
    (st : OutputStream) : Prop :=
  (match status st with
   | Completed =>
       ∃ msgs event, messages st = msgs ++ [ExitMessage event] ∧
                     noExit msgs ∧ closeEvents st = Some (inl event)
   | _ => noExit (messages st)
   end) ∧
  (match closeEvents st with
   | None => status st = Running → firstRealClose events = None
   | Some (inl event) =>
       firstRealClose events = Some event ∧
       exitErrorPredicate options event = false
   | Some (inr err) =>
       ∃ event stderr,
         firstRealClose events = Some event ∧
         exitErrorPredicate options event = true ∧
         err = ProcessExitError (exitCode event) (signal event) stderr None
   end) ∧
  (∀ err, status st = Errored err →
     (∃ s, err = MaxBufferExceededError s) ∨
     closeEvents st = Some (inr err)) ∧
  (∀ name, ended (pipe name st) = true →
     End_ name ∈ events ∨
     ∃ s, status st = Errored (MaxBufferExceededError s)) ∧
  (status st = Completed ∨
   (∃ c s e o, status st = Errored (ProcessExitError c s e o)) →
   ended (stdoutPipe st) = true ∧ ended (stderrPipe st) = true).





(** What holds of a subscription that is still running: it has seen the end
    of every pipe that ended and the first real close, and it is waiting
    for one of them. *)
Definition RunningInvariant (events : list ProcessEvent) (st : OutputStream)
    : Prop :=
  status st = Running →
  (∀ name, End_ name ∈ events → ended (pipe name st) = true) ∧
  (∀ event, firstRealClose events = Some event → closeEvents st ≠ None) ∧
  (ended (stdoutPipe st) = true → ended (stderrPipe st) = true →
   closeEvents st = None).

(** What holds of a subscription to [observeProcess]: [killProcess] was
    called once if the stream failed before the process exited, and never
    otherwise. *)
Definition KillInvariant (options : Options) (events : list ProcessEvent)
    (ps : ProcessStream) : Prop :=
  (wasKilled ps = false → killed ps = []) ∧
  (wasKilled ps = true →
   killed ps = [killRequestOf options] ∧ finished ps = false) ∧
  (∀ err, status (output ps) = Errored err → finished ps = false →
          wasKilled ps = true) ∧
  (wasKilled ps = true → ∃ err, status (output ps) = Errored err) ∧
  (finished ps = true → existsb realExitEvent events = true).

(** ** [killProcess] *)





(** ** The log of calls *)

(** An entry of [loggedCalls], without its [time]. *)
Record LoggedCall := {
  callCommand : string;
  callDuration : Z;
}.

Definition MAX_LOGGED_CALLS : nat := 100.
Definition NUM_PRESERVED_HISTORY_CALLS : nat := 50.

Definition historyStripped : LoggedCall :=
  {| callCommand := "... history stripped ..."; callDuration := 0 |}.

(** [a.splice(0, deleteCount, item)]: the array afterwards. *)
Definition splice0 {A} (deleteCount : nat) (item : A) (a : list A) : list A :=
  item :: drop deleteCount a.

(** [logCall(duration, command, args)]: [loggedCalls] afterwards.
    [shellQuote] is imported from [./string]. *)
Definition logCall (shellQuote : list string → string)
    (loggedCalls : list LoggedCall) (duration : Z) (command : string)
    (args : list string) : list LoggedCall :=
  let loggedCalls :=
    if bool_decide (MAX_LOGGED_CALLS < length loggedCalls)
    then splice0 (length loggedCalls - NUM_PRESERVED_HISTORY_CALLS)
           historyStripped loggedCalls
    else loggedCalls in
  loggedCalls ++
  [{| callCommand := shellQuote (command :: args);
      callDuration := duration |}].

(** A call of [logCall]: its duration, command and arguments. *)
Definition Call : Type := Z * string * list string.

(** The entry that [logCall] pushes for a call. *)
Definition entryOf (shellQuote : list string → string) (call : Call)
    : LoggedCall :=
  {| callCommand := shellQuote (call.1.2 :: call.2);
     callDuration := call.1.1 |}.

(** [loggedCalls] after the calls [calls], from the empty array the module
    starts with. *)
Definition logCalls (shellQuote : list string → string) (calls : list Call)
    : list LoggedCall :=
  foldl (λ loggedCalls call,
           logCall shellQuote loggedCalls call.1.1 call.1.2 call.2)
        [] calls.

(** ** Memory usage *)

(** [s.split(c)] for a separator of one character: [current] is the piece
    being read. *)
Fixpoint splitChar (separator : ascii) (current : list ascii)
    (s : list ascii) : list string :=
  match s with
  | [] => [String.string_of_list_ascii current]
  | c :: rest =>
      if Ascii.eqb c separator
      then String.string_of_list_ascii current :: splitChar separator [] rest
      else splitChar separator (current ++ [c]) rest
  end.




(** ** The original environment *)

(** An environment: [process.env], or an object with string properties. *)
Definition Env : Type := gmap string string.

(** The object [getOriginalEnvironment] returns: [process.env] itself, or an
    object of its own. *)
Inductive EnvObject :=
| ProcessEnv
| OwnEnv (env : Env).

(** [s.indexOf(c)] for one character; [None] is [-1]. *)
Fixpoint indexOf (c : ascii) (s : string) : option nat :=
  match s with
  | EmptyString => None
  | String x rest => if Ascii.eqb x c then Some 0 else S <$> indexOf c rest
  end.

(** [s.substring(start)] *)
Definition substringFrom (start : nat) (s : string) : string :=
  String.substring start (String.length s - start) s.

(** [o[key] = value] on an object created by [{}]: assigning a string to
    [__proto__] creates no property. *)
Definition setProperty (key value : string) (o : Env) : Env :=
  if String.eqb key "__proto__" then o else <[key := value]> o.

(** The loop over [envString.split('\0')]. *)
Definition parseOriginalEnv (envString : string) : Env :=
  foldl (λ o envVar,
           match indexOf "=" envVar with
           | Some equalIndex =>
               setProperty (String.substring 0 equalIndex envVar)
                 (substringFrom (equalIndex + 1) envVar) o
           | None => o
           end)
        ∅ (splitChar "000" [] (String.list_ascii_of_string envString)).

(** [getOriginalEnvironment()]: the object returned and
    [cachedOriginalEnvironment] afterwards.  [base64Decode] is
    [new Buffer(s, 'base64').toString()]. *)
Definition getOriginalEnvironment (base64Decode : string → string)
    (processEnv : Env) (cachedOriginalEnvironment : option EnvObject)
    : EnvObject * option EnvObject :=
  match cachedOriginalEnvironment with
  | Some cached => (cached, cachedOriginalEnvironment)
  | None =>
      let cached :=
        match processEnv !! "NUCLIDE_ORIGINAL_ENV" with
        | Some original =>
            if negb (String.eqb (trim original) "")
            then let own := parseOriginalEnv (base64Decode original) in
                 if bool_decide (dom own = (∅ : gset string))
                 then ProcessEnv else OwnEnv own
            else ProcessEnv
        | None => ProcessEnv
        end in
      (cached, Some cached)
  end.

(** [getOriginalEnvironmentArray()] *)
Definition getOriginalEnvironmentArray (base64Decode : string → string)
    (processEnv : Env) : list string :=
  match processEnv !! "NUCLIDE_ORIGINAL_ENV" with
  | Some original =>
      if negb (String.eqb (trim original) "")
      then splitChar "000" []
             (String.list_ascii_of_string (base64Decode original))
      else []
  | None => []
  end.

(** What a variable reads in the object a call returned, given
    [process.env] at the time of reading. *)
Definition readEnv (processEnv : Env) (o : EnvObject) (key : string)
    : option string :=
  match o with
  | ProcessEnv => processEnv !! key
  | OwnEnv env => env !! key
  end.

(** ** Reference notions for tables of columns *)

(** Whitespace without line breaks. *)
Definition blank (s : string) : Prop :=
  Forall (λ c, isSpace c = true ∧ c ≠ "010"%char ∧ c ≠ "013"%char)
    (String.list_ascii_of_string s).

Definition whitespace (s : string) : Prop :=
  Forall (λ c, isSpace c = true) (String.list_ascii_of_string s).

(** A column: at least one character and no whitespace. *)
Definition word (s : string) : Prop :=
  s ≠ "" ∧ Forall (λ c, isSpace c = false) (String.list_ascii_of_string s).

Definition lineBreak (s : string) : Prop :=
  s = String "010" "" ∨ s = String "013" (String "010" "").

(** A line of a table: its columns and the whitespace around them (each
    later column with the separator before it). *)
Record Line := {
  lead : string;
  firstColumn : string;
  moreColumns : list (string * string);
  trail : string;
}.

Definition lineText (l : Line) : string :=
  lead l +:+ firstColumn l +:+
  joinAll ((λ column, column.1 +:+ column.2) <$> moreColumns l) +:+ trail l.

Definition lineColumns (l : Line) : list string :=
  firstColumn l :: (moreColumns l).*2.

Definition wellSpaced (l : Line) : Prop :=
  blank (lead l) ∧ blank (trail l) ∧ word (firstColumn l) ∧
  Forall (λ column, column.1 ≠ "" ∧ blank column.1 ∧ word column.2)
    (moreColumns l).


(** The value of the last entry for [key]. *)
Definition lastBinding {K V} `{EqDecision K} (key : K)
    (entries : list (K * V)) : option V :=
  snd <$> last (filter (λ entry, entry.1 = key) entries).



(** A line of [ps -o pid= -o rss=]: two numbers in decimal. *)
Definition rendersUsage (l : Line) (entry : Z * Z) : Prop :=
  lineColumns l = [pretty entry.1; pretty entry.2].

(** The rows of a table as [tableText] takes them. *)
Definition wellFormedRows (rows : list (string * Line)) : Prop :=
  Forall (λ row, lineBreak row.1 ∧ wellSpaced row.2) rows.






(** Lines, each ended by a line feed. *)
Definition linesText (lines : list Line) : string :=
  joinAll ((λ l, lineText l +:+ String newline "") <$> lines).

(** ** Reference notions for the original environment *)

(** [a.join('\0')] *)
Fixpoint joinNul (a : list string) : string :=
  match a with
  | [] => ""
  | [x] => x
  | x :: rest => x +:+ String "000" "" +:+ joinNul rest
  end.

(** A variable as the environment string has it: [A=value_of_A]. *)
Definition envVarOf (entry : string * string) : string :=
  entry.1 +:+ "=" +:+ entry.2.

(** A name without [=] and a value, both without the separator. *)
Definition validEntry (entry : string * string) : Prop :=
  Forall (λ c, c ≠ "="%char ∧ c ≠ "000"%char)
    (String.list_ascii_of_string entry.1) ∧
  Forall (λ c, c ≠ "000"%char) (String.list_ascii_of_string entry.2).


(** An original environment of two variables, the second with [=] in its
    value, and [process.env] with its encoded form ([base64Example] stands
    for the decoder on that form). *)
Definition originalExample : list (string * string) :=
  [("HOME", "/home/user"); ("LS_COLORS", "di=34")].

Definition base64Example (s : string) : string :=
  if String.eqb s "SE9NRT0..." then joinNul (envVarOf <$> originalExample)
  else "".

Definition processEnvExample : Env :=
  {["NUCLIDE_ORIGINAL_ENV" := "SE9NRT0..."; "HOME" := "/"]}.

(** What holds of the pipe [name] of a subscription after the
    notifications [events]: what was passed on, with the unfinished line
    that is held, is the start of what the process wrote to the pipe, and
    all of it while the pipe is open and the stream runs; without line
    splitting nothing is held. *)
Definition TextInvariant (options : Options) (events : list ProcessEvent)
    (st : OutputStream) (name : StreamName) : Prop :=
  ∃ rest,
    joinAll (dataOf name events) = textOf name st +:+ rest ∧
    (status st = Running → ended (pipe name st) = false → rest = "") ∧
    (chunkByLines options = false → current (pipe name st) = "").

(** ** The binary of a process *)

(** [runCommand(command, args)] followed by [catch(_ => Observable.of(null))]
    is given as [run]: the standard output, or [None] for [null]. *)
Definition _getLinuxBinaryPathForPid
    (run : string → list string → option string) (p : Z) : option string :=
  let exeLink := "/proc/" +:+ pretty p +:+ "/exe" in
  run "/bin/realpath" ["-q"; "-e"; exeLink].

(** [None] is [null] or [undefined]. *)
Definition _getDarwinBinaryPathForPid
    (run : string → list string → option string) (p : Z) : option string :=
  match run "/usr/sbin/lsof" ["-p"; pretty p] with
  | None => None
  | Some output =>
      match filter (λ line, line !! 3 = Some "txt")
              (columnsOf <$>
               splitChar "010" [] (String.list_ascii_of_string output)) with
      | [] => None
      | line :: _ => line !! 8
      end
  end.

Definition getAbsoluteBinaryPathForPid (platform : string)
    (run : string → list string → option string) (p : Z) : option string :=
  if String.eqb platform "linux" then _getLinuxBinaryPathForPid run p
  else if String.eqb platform "darwin" then _getDarwinBinaryPathForPid run p
  else None.

(** Lines of [lsof -p]: the header, the working directory, the binary
    (installed under a directory with a space in its name) and a library. *)
Definition lsofExample : list Line :=
  [{| lead := ""; firstColumn := "COMMAND";
      moreColumns := [(" ", "PID"); (" ", "USER"); ("   ", "FD");
                      ("   ", "TYPE"); (" ", "DEVICE"); (" ", "SIZE/OFF");
                      (" ", "NODE"); (" ", "NAME")];
      trail := "" |};
   {| lead := ""; firstColumn := "node";
      moreColumns := [("    ", "77"); (" ", "user"); ("  ", "cwd");
                      ("    ", "DIR"); ("    ", "1,4"); ("      ", "640");
                      ("  ", "211"); (" ", "/Users/user")];
      trail := "" |};
   {| lead := ""; firstColumn := "node";
      moreColumns := [("    ", "77"); (" ", "user"); ("  ", "txt");
                      ("    ", "REG"); ("    ", "1,4"); (" ", "41234567");
                      ("  ", "985"); (" ", "/Applications/My");
                      (" ", "Tools/bin/node")];
      trail := "" |};
   {| lead := ""; firstColumn := "node";
      moreColumns := [("    ", "77"); (" ", "user"); ("  ", "txt");
                      ("    ", "REG"); ("    ", "1,4"); ("   ", "837248");
                      ("  ", "312"); (" ", "/usr/lib/dyld")];
      trail := "" |}].

(** ** Messages for exits *)

(** [exitEventToMessage(event)]; [None] when its [invariant] fails. *)
Definition exitEventToMessage (event : ProcessExitMessage) : option string :=
  match exitCode event with
  | Some c => Some ("exit code " +:+ pretty c)
  | None =>
      match signal event with
      | Some s => Some ("signal " +:+ s)
      | None => None
      end
  end.

(** An exit as Node reports it: "Exactly one of exitCode and signal will be
    non-null". *)
Definition nodeExit (event : ProcessExitMessage) : Prop :=
  (exitCode event = None ∧ signal event ≠ None) ∨
  (exitCode event ≠ None ∧ signal event = None).

(** * Theorems *)

(** Reassociate appended lists to the right. *)
Ltac list_assoc :=
  repeat (rewrite <- app_assoc); simpl;
  repeat (rewrite <- app_assoc); simpl; try done.

(** ** The parent→children index *)

Lemma MultiMap_get_add {V} (key key' : Z) (value : V) (m : gmap Z (list V)) :
  MultiMap_get key' (MultiMap_add key value m) =
  MultiMap_get key' m ++ (if decide (key = key') then [value] else []).
Proof.
  unfold MultiMap_get, MultiMap_add.
  destruct (decide (key = key')) as [->|Hne].
  - by rewrite lookup_insert_eq.
  - rewrite lookup_insert_ne by done. by rewrite app_nil_r.
Qed.

Lemma indexProcesses_snoc rootPid processes info :
  indexProcesses rootPid (processes ++ [info]) =
  (if bool_decide (pid info = rootPid) then Some info
   else (indexProcesses rootPid processes).1,
   MultiMap_add (parentPid info) info (indexProcesses rootPid processes).2).
Proof. unfold indexProcesses. by rewrite foldl_app. Qed.

Lemma indexProcesses_root rootPid processes :
  (indexProcesses rootPid processes).1 = rootProcessInfo processes rootPid.
Proof.
  unfold rootProcessInfo.
  induction processes as [|info processes IH] using rev_ind; [done|].
  rewrite indexProcesses_snoc, filter_app. simpl.
  rewrite filter_cons, filter_nil.
  case_bool_decide; case_decide; try done.
  - by rewrite last_snoc.
  - by rewrite app_nil_r.
Qed.

Lemma indexProcesses_children rootPid processes p :
  MultiMap_get p (indexProcesses rootPid processes).2 =
  getChildrenOfProcess processes p.
Proof.
  unfold getChildrenOfProcess.
  induction processes as [|info processes IH] using rev_ind; [done|].
  rewrite indexProcesses_snoc, filter_app. simpl.
  rewrite MultiMap_get_add, IH, filter_cons, filter_nil.
  by repeat case_decide.
Qed.

Lemma getDescendantsOfProcess_unfold fuel processes rootPid :
  getDescendantsOfProcess fuel processes rootPid =
  walkDescendants fuel (indexProcesses rootPid processes).2 0
    (match rootProcessInfo processes rootPid with
     | None => [] | Some r => [r] end).
Proof.
  unfold getDescendantsOfProcess.
  rewrite <- indexProcesses_root.
  by destruct (indexProcesses rootPid processes).
Qed.

(** ** The walk is a level-order traversal *)

Section Walk.
Variable processes : list ProcessInfo.
Variable pidToChildren : gmap Z (list ProcessInfo).
Hypothesis index_ok : ∀ p,
  MultiMap_get p pidToChildren = getChildrenOfProcess processes p.

Local Abbreviation childrenOf :=
  (λ info : ProcessInfo, getChildrenOfProcess processes (pid info)).

Lemma generation_succ_l n roots :
  generation processes (S n) roots =
  generation processes n (roots ≫= childrenOf).
Proof. induction n as [|n IH]; [done|]. simpl in *. by rewrite IH. Qed.

Lemma generations_succ_l n roots :
  generations processes (S n) roots =
  roots ++ generations processes n (roots ≫= childrenOf).
Proof.
  unfold generations. rewrite <- cons_seq, fmap_cons, concat_cons.
  f_equal. rewrite <- fmap_S_seq, <- list_fmap_compose.
  f_equal. apply list_fmap_ext. intros _ k _. apply generation_succ_l.
Qed.

Lemma generation_nil n : generation processes n [] = [].
Proof. induction n as [|n IH]; [done|]. simpl. by rewrite IH. Qed.

(** Walking over a block [queue] of the array appends the children of its
    entries, in order, behind whatever was already pending. *)
Lemma walkDescendants_block queue : ∀ fuel done pending,
  walkDescendants (fuel + length queue) pidToChildren (length done)
    (done ++ queue ++ pending) =
  walkDescendants fuel pidToChildren (length done + length queue)
    (done ++ queue ++ pending ++ (queue ≫= childrenOf)).
Proof.
  induction queue as [|info queue IH]; intros fuel done pending.
  - simpl. by rewrite !Nat.add_0_r, !app_nil_r.
  - replace (fuel + length (info :: queue)) with (S (fuel + length queue))
      by (simpl; lia).
    simpl. rewrite list_lookup_middle by done. rewrite index_ok.
    etrans; [|etrans; [apply (IH fuel (done ++ [info])
      (pending ++ getChildrenOfProcess processes (pid info)))|]].
    + f_equal; [rewrite length_app; simpl; lia|]. list_assoc.
    + f_equal; [rewrite length_app; simpl; lia|]. list_assoc.
Qed.

(** Once some generation is empty the walk ends, and it has listed the
    generations one after the other. *)
Lemma walkDescendants_generations n : ∀ roots done extra,
  generation processes n roots = [] →
  walkDescendants (extra + S (length (generations processes n roots)))
    pidToChildren (length done) (done ++ roots) =
  Some (done ++ generations processes n roots).
Proof.
  induction n as [|n IH]; intros roots done extra Hempty.
  - simpl in Hempty. subst roots. unfold generations. simpl.
    rewrite Nat.add_1_r, app_nil_r. simpl.
    by rewrite lookup_ge_None_2.
  - rewrite generations_succ_l, length_app.
    rewrite generation_succ_l in Hempty.
    replace (extra + S (length roots + length
               (generations processes n (roots ≫= childrenOf))))
      with ((extra + S (length (generations processes n
               (roots ≫= childrenOf)))) + length roots) by lia.
    pose proof (walkDescendants_block roots
      (extra + S (length (generations processes n (roots ≫= childrenOf))))
      done []) as Hblock.
    rewrite !app_nil_r in Hblock. simpl in Hblock. rewrite Hblock.
    rewrite <- length_app, (assoc_L (++)).
    rewrite (IH _ (done ++ roots) extra Hempty).
    by rewrite <- (assoc_L (++)).
Qed.






(** A row that is its own only child keeps the walk going for ever. *)
Lemma walkDescendants_self_parent info fuel : ∀ i l,
  getChildrenOfProcess processes (pid info) = [info] →
  Forall (λ x, x = info) l → i < length l →
  walkDescendants fuel pidToChildren i l = None.
Proof.
  induction fuel as [|fuel IH]; intros i l Hself Hall Hi; [done|].
  simpl. destruct (lookup_lt_is_Some_2 l i Hi) as [x Hx]. rewrite Hx.
  assert (x = info) as ->.
  { rewrite Forall_forall in Hall. apply Hall.
    by eapply list_elem_of_lookup_2. }
  rewrite index_ok, Hself. apply IH; [done| |].
  - apply Forall_app. split; [done|]. by constructor.
  - rewrite length_app. simpl. lia.
Qed.

End Walk.

(** ** Generations and depth *)

Lemma generation_depthOf processes root n info :
  info ∈ generation processes n [root] ↔ depthOf processes root info n.
Proof.
  split.
  - revert info. induction n as [|n IH]; intros info Hin.
    + apply list_elem_of_singleton in Hin as ->. constructor.
    + simpl in Hin. apply list_elem_of_bind in Hin as (parent & Hin & Hpar).
      unfold getChildrenOfProcess in Hin.
      apply list_elem_of_filter in Hin as [Heq Hrow].
      by eapply depth_child; [apply IH| |].
  - induction 1 as [|info parent d _ IH Hrow Heq].
    + by apply list_elem_of_singleton.
    + simpl. apply list_elem_of_bind. exists parent. split; [|done].
      unfold getChildrenOfProcess. by apply list_elem_of_filter.
Qed.

Lemma generation_empty_later processes roots n m :
  generation processes n roots = [] → n ≤ m →
  generation processes m roots = [].
Proof.
  intros Hempty. induction 1 as [|m _ IH]; [done|]. simpl. by rewrite IH.
Qed.

Lemma generations_snoc processes n roots :
  generations processes (S n) roots =
  generations processes n roots ++ generation processes n roots.
Proof.
  unfold generations.
  by rewrite seq_S, fmap_app, concat_app; simpl; rewrite app_nil_r.
Qed.

Lemma generationDepths_snoc processes n roots :
  generationDepths processes (S n) roots =
  generationDepths processes n roots ++
  replicate (length (generation processes n roots)) n.
Proof.
  unfold generationDepths.
  by rewrite seq_S, fmap_app, concat_app; simpl; rewrite app_nil_r.
Qed.

Lemma elem_of_generations processes n roots info :
  info ∈ generations processes n roots ↔
  ∃ k, k < n ∧ info ∈ generation processes k roots.
Proof.
  induction n as [|n IH].
  - unfold generations. simpl. split; [by intros ?%elem_of_nil|].
    intros (k & ? & _). lia.
  - rewrite generations_snoc, elem_of_app, IH. split.
    + intros [(k & ? & ?)|?]; [exists k|exists n]; split; done || lia.
    + intros (k & Hk & Hin).
      destruct (decide (k = n)) as [->|]; [by right|].
      left. exists k. split; [lia|done].
Qed.

Lemma generationDepths_bound processes n roots :
  Forall (λ d, d < n) (generationDepths processes n roots).
Proof.
  induction n as [|n IH]; [by constructor|].
  rewrite generationDepths_snoc. apply Forall_app. split.
  - eapply Forall_impl; [exact IH|]. simpl. lia.
  - apply Forall_replicate. lia.
Qed.

Lemma generationDepths_sorted processes n roots :
  StronglySorted le (generationDepths processes n roots).
Proof.
  induction n as [|n IH]; [constructor|].
  rewrite generationDepths_snoc. apply StronglySorted_app.
  split_and!; [|done|].
  - intros d1 d2 Hd1 Hd2%elem_of_replicate.
    pose proof (generationDepths_bound processes n roots) as Hb.
    rewrite Forall_forall in Hb. apply Hb in Hd1. lia.
  - generalize (length (generation processes n roots)).
    intros m. induction m as [|m IHm]; simpl; constructor; [done|].
    by apply Forall_replicate.
Qed.

Lemma generations_depthOf processes root n :
  Forall2 (depthOf processes root)
    (generations processes n [root]) (generationDepths processes n [root]).
Proof.
  induction n as [|n IH]; [constructor|].
  rewrite generations_snoc, generationDepths_snoc.
  apply Forall2_app; [done|].
  apply Forall2_replicate_r; [done|].
  apply Forall_forall. intros info. apply generation_depthOf.
Qed.

(** ** Parsing *)

Example parsePsOutput_with_args :
  parsePsOutput psExample (Some psArgsExample) =
  Some [{| parentPid := 1; pid := 100; command := "bash";
           commandWithArgs := "bash -l" |};
        {| parentPid := 100; pid := 200; command := "node";
           commandWithArgs := "node server.js --port 80" |}].
Proof. reflexivity. Qed.

Example columnsOf_rejoins_command :
  columnsOf "  100   200 node  server.js " =
    ["100"; "200"; "node"; "server.js"] ∧
  joinSpace (drop 2 (columnsOf "  100   200 node  server.js ")) =
    "node server.js".
Proof. split; reflexivity. Qed.

(** ** Descendants of a process *)

(** C4 (amended).  For a snapshot in which the rows below the root form a
    finite tree (some generation below the root is empty, that is, no parent
    cycle is reachable from the root), [getDescendantsOfProcess] returns,
    given enough iterations, the root followed by generation 1, generation 2
    and so on: exactly the rows reachable from the root, each with a depth,
    and these depths never decrease along the list. *)
Theorem getDescendantsOfProcess_breadth_first processes rootPid root n :
  rootProcessInfo processes rootPid = Some root →
  generation processes n [root] = [] →
  ∃ descendants ds,
    (∀ fuel, length descendants < fuel →
       getDescendantsOfProcess fuel processes rootPid = Some descendants) ∧
    descendants = generations processes n [root] ∧
    head descendants = Some root ∧
    (∀ info, info ∈ descendants ↔ ∃ d, depthOf processes root info d) ∧
    Forall2 (depthOf processes root) descendants ds ∧
    StronglySorted le ds.
Proof.
  intros Hroot Hempty.
  exists (generations processes n [root]),
         (generationDepths processes n [root]).
  split_and!.
  - intros fuel Hfuel.
    rewrite getDescendantsOfProcess_unfold, Hroot.
    replace fuel with
      ((fuel - S (length (generations processes n [root]))) +
       S (length (generations processes n [root]))) by lia.
    apply (walkDescendants_generations processes
             (indexProcesses rootPid processes).2
             (indexProcesses_children rootPid processes) n [root] []);
      done.
  - done.
  - destruct n as [|n]; [done|]. by rewrite generations_succ_l.
  - intros info. rewrite elem_of_generations. split.
    + intros (k & _ & Hin). exists k. by apply generation_depthOf.
    + intros (d & Hd). exists d. split; [|by apply generation_depthOf].
      destruct (decide (d < n)) as [|Hge]; [done|].
      apply generation_depthOf in Hd.
      rewrite (generation_empty_later processes [root] n d) in Hd
        by (done || lia).
      by apply elem_of_nil in Hd.
  - apply generations_depthOf.
  - apply generationDepths_sorted.
Qed.


Lemma getDescendantsOfProcess_breadth_first_witness :
  parsePsOutput psExample None = Some bashNodeSnapshot ∧
  getDescendantsOfProcess 3 bashNodeSnapshot 100 = Some [bashRow; nodeRow].
Proof.
  split; [reflexivity|].
  destruct (getDescendantsOfProcess_breadth_first bashNodeSnapshot 100
              bashRow 2 eq_refl eq_refl)
    as (descendants & ds & Hfuel & -> & _).
  rewrite Hfuel; [reflexivity|]. vm_compute. lia.
Defined.

(** C4 (as stated) fails on a snapshot with a parent cycle at the root: the
    root is present, yet the walk never returns. *)
Lemma getDescendantsOfProcess_self_parent_never_returns :
  rootProcessInfo idleSnapshot 0 = Some idleRow ∧
  ¬ ∃ fuel descendants,
      getDescendantsOfProcess fuel idleSnapshot 0 = Some descendants.
Proof.
  split; [reflexivity|]. intros (fuel & descendants & Hret).
  rewrite getDescendantsOfProcess_unfold in Hret.
  rewrite (walkDescendants_self_parent idleSnapshot
             (indexProcesses 0 idleSnapshot).2
             (indexProcesses_children 0 idleSnapshot) idleRow) in Hret.
  - done.
  - reflexivity.
  - change (rootProcessInfo idleSnapshot 0) with (Some idleRow).
    by constructor.
  - change (rootProcessInfo idleSnapshot 0) with (Some idleRow).
    simpl. lia.
Qed.

(** ** Killing a process tree *)








(** C8.  [killPid] returns normally when [process.kill] succeeds or fails
    with [ESRCH], and throws the very error of [process.kill] otherwise. *)
Theorem killPid_swallows_ESRCH process_kill signalled p :
  (process_kill signalled p = None →
   (killPid process_kill signalled p).2 = Returned ()) ∧
  (∀ err, process_kill signalled p = Some err → code err = "ESRCH" →
   (killPid process_kill signalled p).2 = Returned ()) ∧
  (∀ err, process_kill signalled p = Some err → code err ≠ "ESRCH" →
   (killPid process_kill signalled p).2 = Thrown err).
Proof.
  unfold killPid. split_and!.
  - by intros ->.
  - intros err -> Hcode. by rewrite bool_decide_eq_false_2 by naive_solver.
  - intros err -> Hcode. by rewrite bool_decide_eq_true_2.
Qed.

Lemma killPid_swallows_ESRCH_witness :
  (killPid (λ _ _, Some {| code := "ESRCH"; syscall := "kill" |}) [] 4242).2
    = Returned () ∧
  (killPid (λ _ _, Some {| code := "EPERM"; syscall := "kill" |}) [] 1).2
    = Thrown {| code := "EPERM"; syscall := "kill" |}.
Proof.
  split.
  - apply (proj1 (proj2 (killPid_swallows_ESRCH
      (λ _ _, Some {| code := "ESRCH"; syscall := "kill" |}) [] 4242)) _
      eq_refl eq_refl).
  - apply (proj2 (proj2 (killPid_swallows_ESRCH
      (λ _ _, Some {| code := "EPERM"; syscall := "kill" |}) [] 1)) _
      eq_refl). by vm_compute.
Defined.

(** C9.  [killWindowsProcessTree] resolves exactly when [exec] calls back
    with a non-null error, and rejects (with that null) when the error is
    null. *)
Theorem killWindowsProcessTree_inverted exec p :
  (killWindowsProcessTree exec p = Resolved () ↔
   exec (taskkillCommand p) ≠ None) ∧
  (exec (taskkillCommand p) = None →
   killWindowsProcessTree exec p = Rejected None).
Proof.
  unfold killWindowsProcessTree, taskkillCommand.
  destruct (exec _); split; try split; done.
Qed.

Lemma killWindowsProcessTree_inverted_witness :
  killWindowsProcessTree (λ _, None) 77 = Rejected None ∧
  killWindowsProcessTree
    (λ _, Some {| code := "1"; syscall := "exec" |}) 77 = Resolved ().
Proof.
  split.
  - by apply (proj2 (killWindowsProcessTree_inverted (λ _, None) 77)).
  - by apply (proj1 (killWindowsProcessTree_inverted
      (λ _, Some {| code := "1"; syscall := "exec" |}) 77)).
Defined.

(** ** Strings *)

#[local] Arguments String.append !_ _ / : simpl nomatch.

Lemma app_empty_r (s : string) : s +:+ "" = s.
Proof. induction s as [|c s IH]; simpl; [done|]. by rewrite IH. Qed.

Lemma app_assoc_s (s t u : string) : (s +:+ t) +:+ u = s +:+ (t +:+ u).
Proof. induction s as [|c s IH]; simpl; [done|]. by rewrite IH. Qed.

Lemma strlen_app (s t : string) : strlen (s +:+ t) = (strlen s + strlen t)%Z.
Proof.
  unfold strlen. induction s as [|c s IH]; simpl String.length; [lia|].
  rewrite !Nat2Z.inj_succ. lia.
Qed.

Lemma strlen_nonneg (s : string) : (0 ≤ strlen s)%Z.
Proof. unfold strlen. lia. Qed.

Lemma joinAll_app (l k : list string) :
  joinAll (l ++ k) = joinAll l +:+ joinAll k.
Proof.
  induction l as [|s l IH]; simpl; [done|]. by rewrite IH, app_assoc_s.
Qed.

Lemma substring_0_0 (s : string) : String.substring 0 0 s = "".
Proof. by destruct s. Qed.


(** A prefix that is long enough does not depend on what follows. *)
Lemma substring_0_app_ge (n : nat) : ∀ s t,
  n ≤ String.length s →
  String.substring 0 n (s +:+ t) = String.substring 0 n s.
Proof.
  induction n as [|n IH]; intros s t Hlen.
  - by rewrite !substring_0_0.
  - destruct s as [|c s]; simpl in *; [lia|]. by rewrite IH by lia.
Qed.


Lemma substring_0_all (n : nat) : ∀ s,
  String.length s ≤ n → String.substring 0 n s = s.
Proof.
  induction n as [|n IH]; intros [|c s] Hlen; simpl in *; try done; [lia|].
  by rewrite IH by lia.
Qed.



(** ** Stream primitives *)

Lemma splitLines_join value : ∀ current,
  joinAll (splitLines current value).1 +:+ (splitLines current value).2 =
  current +:+ value.
Proof.
  induction value as [|c rest IH]; intros current; simpl.
  - by rewrite app_empty_r.
  - destruct (Ascii.eqb c newline).
    + specialize (IH ""). destruct (splitLines "" rest) as [lines last].
      simpl in *. rewrite app_assoc_s, IH. by rewrite app_assoc_s.
    + rewrite IH. by rewrite app_assoc_s.
Qed.


Section AccumulatedStderr.
Variable size : Z.

Local Abbreviation below :=
  (λ acc : string, bool_decide (strlen acc < size)%Z).
Local Abbreviation step :=
  (λ acc data : string, slice0 (acc +:+ data) size).







End AccumulatedStderr.

(** ** Steps of the output multiplexer *)

(** Read the fields of an updated stream. *)
Ltac fields :=
  cbn [withPipe deliver withStatus withCloseEvents messages stderrEvents
       stdoutPipe stderrPipe status closeEvents].

Lemma chunksOf_app name l k :
  chunksOf name (l ++ k) = chunksOf name l ++ chunksOf name k.
Proof. unfold chunksOf. by rewrite bind_app. Qed.

Lemma chunksOf_toMessage name n chunks :
  chunksOf name (toMessage n <$> chunks) =
  if decide (n = name) then chunks else [].
Proof.
  unfold chunksOf. induction chunks as [|c chunks IH].
  - by destruct (decide _).
  - rewrite fmap_cons, bind_cons, IH. by destruct n, name.
Qed.

Lemma dataOf_cons name ev events :
  dataOf name (ev :: events) = dataOf name [ev] ++ dataOf name events.
Proof. unfold dataOf. simpl. by rewrite app_nil_r. Qed.

Lemma dataOf_app name l k :
  dataOf name (l ++ k) = dataOf name l ++ dataOf name k.
Proof. unfold dataOf. by rewrite bind_app. Qed.

Lemma bytesOf_app name l k :
  bytesOf name (l ++ k) = (bytesOf name l + bytesOf name k)%Z.
Proof. unfold bytesOf. by rewrite dataOf_app, joinAll_app, strlen_app. Qed.


Lemma bytesOf_nonneg name events : (0 ≤ bytesOf name events)%Z.
Proof. apply strlen_nonneg. Qed.

Lemma bytesOf_Data name n data :
  bytesOf name [Data n data] = if decide (n = name) then strlen data else 0%Z.
Proof.
  unfold bytesOf, dataOf. simpl. destruct (decide _); simpl; [|done].
  by rewrite app_empty_r.
Qed.

Lemma joinAll_onEnd p : joinAll (onEnd p) = current p.
Proof.
  unfold onEnd. destruct (String.eqb_spec (current p) "") as [->|]; [done|].
  simpl. by rewrite app_empty_r.
Qed.

Lemma outputStep_ended options st ev :
  status st ≠ Running → outputStep options st ev = st.
Proof. unfold outputStep. by destruct (status st). Qed.








(** ** A whole run through [getOutputStream] *)







(** ** The process stream *)

Lemma observeStep_output options ps ev :
  output (observeStep options ps ev) = outputStep options (output ps) ev.
Proof.
  unfold observeStep, processStatus.
  destruct (status (output ps)) eqn:Hst.
  - destruct (status (outputStep options (output ps) ev));
      [done..|by destruct (_ && _)].
  - rewrite outputStep_ended by congruence.
    destruct (finished ps); [done|]. rewrite Hst. done.
  - by rewrite outputStep_ended by congruence.
Qed.

Lemma observeProcess_output_from options events : ∀ ps,
  output (foldl (observeStep options) ps events) =
  foldl (outputStep options) (output ps) events.
Proof.
  induction events as [|ev events IH]; intros ps; [done|].
  simpl. by rewrite IH, observeStep_output.
Qed.

Lemma observeProcess_output options events :
  output (observeProcess options events) = getOutputStream options events.
Proof. apply observeProcess_output_from. Qed.







(** ** Exit classification *)






(** ** [runCommandDetailed] *)



(** ** The buffer limit *)

Lemma LimitInvariant_mono options seen more st :
  LimitInvariant options seen st → LimitInvariant options (seen ++ more) st.
Proof.
  intros (Htotal & Hclose & Herror). split_and!; [|done|].
  - intros name. rewrite bytesOf_app.
    pose proof (bytesOf_nonneg name more). specialize (Htotal name). lia.
  - intros s Hs. destruct (Herror s Hs) as (name & m & Hm & -> & Hlt).
    exists name, m. split_and!; [done..|].
    rewrite bytesOf_app. pose proof (bytesOf_nonneg name more). lia.
Qed.

Lemma concatCloseEvents_LimitInvariant options seen st :
  status st = Running →
  LimitInvariant options seen st →
  LimitInvariant options seen (concatCloseEvents st).
Proof.
  intros Hrun Hinv. pose proof Hinv as (Htotal & Hclose & Herror).
  unfold concatCloseEvents.
  destruct (ended (stdoutPipe st) && ended (stderrPipe st)); [|done].
  destruct (closeEvents st) as [[event|error]|] eqn:Hce; [| |done].
  - split_and!; [|done..].
    intros []; [apply (Htotal Stdout)|apply (Htotal Stderr)].
  - split_and!.
    + intros []; [apply (Htotal Stdout)|apply (Htotal Stderr)].
    + intros s. simpl. rewrite Hce. apply Hclose.
    + simpl. intros s [= ->]. by destruct (Hclose s).
Qed.

Lemma LimitInvariant_pipe options seen st name p chunks :
  status st = Running →
  (totalSize p ≤ bytesOf name seen)%Z →
  LimitInvariant options seen st →
  LimitInvariant options seen (withPipe name p (deliver name chunks st)).
Proof.
  intros Hrun Hp (Htotal & Hclose & Herror). split_and!.
  - pose proof (Htotal Stdout). pose proof (Htotal Stderr).
    intros []; destruct name; simpl in *; done.
  - done.
  - simpl. congruence.
Qed.

Lemma outputStep_LimitInvariant options seen st ev :
  LimitInvariant options seen st →
  LimitInvariant options (seen ++ [ev]) (outputStep options st ev).
Proof.
  intros Hinv. pose proof Hinv as (Htotal & Hclose & Herror).
  unfold outputStep.
  destruct (status st) eqn:Hrun; [|by apply LimitInvariant_mono..].
  destruct ev as [name data|name|event|event].
  - destruct (ended (pipe name st)); [by apply LimitInvariant_mono|].
    assert (bytesOf name (seen ++ [Data name data]) =
            (bytesOf name seen + strlen data)%Z) as Hbytes.
    { rewrite bytesOf_app, bytesOf_Data. by rewrite decide_True. }
    pose proof (strlen_nonneg data) as Hdata.
    specialize (Htotal name).
    unfold pipeData, limitBufferSize.
    destruct (maxBuffer options) as [m|] eqn:Hmax.
    + case_bool_decide as Hexceeds.
      * pose proof (LimitInvariant_pipe options (seen ++ [Data name data]) st
          name {| totalSize := totalSize (pipe name st) + strlen data;
                  current := ""; ended := true |} (onEnd (pipe name st))
          Hrun) as (Htotal' & Hclose' & _).
        { simpl. lia. }
        { by apply LimitInvariant_mono. }
        split_and!; [done..|].
        simpl. intros s [= <-]. exists name, m. split_and!; [done..|]. lia.
      * destruct (chunkByLines options);
          [destruct (splitLines (current (pipe name st)) data)|];
          (apply LimitInvariant_pipe;
           [done|simpl; lia|by apply LimitInvariant_mono]).
    + destruct (chunkByLines options);
        [destruct (splitLines (current (pipe name st)) data)|];
        (apply LimitInvariant_pipe;
         [done|simpl; lia|by apply LimitInvariant_mono]).
  - destruct (ended (pipe name st)); [by apply LimitInvariant_mono|].
    apply concatCloseEvents_LimitInvariant; [done|].
    apply LimitInvariant_pipe; [done| |by apply LimitInvariant_mono].
    simpl. specialize (Htotal name). rewrite bytesOf_app.
    pose proof (bytesOf_nonneg name [End_ name]). lia.
  - by apply LimitInvariant_mono.
  - destruct (closeEvents st) eqn:Hce; [by apply LimitInvariant_mono|].
    destruct (isRealExit event); [|by apply LimitInvariant_mono].
    apply concatCloseEvents_LimitInvariant; [done|].
    apply LimitInvariant_mono.
    split_and!.
    + intros []; [apply (Htotal Stdout)|apply (Htotal Stderr)].
    + unfold classifyExit. simpl. intros s.
      by destruct (exitErrorPredicate options event).
    + simpl. rewrite Hrun. exact Herror.
Qed.

Lemma getOutputStream_LimitInvariant options events :
  LimitInvariant options events (getOutputStream options events).
Proof.
  unfold getOutputStream.
  induction events as [|ev events IH] using rev_ind.
  - split_and!; [by intros []|done..].
  - rewrite foldl_app. simpl. by apply outputStep_LimitInvariant.
Qed.





(** ** Defaults of the size options *)









(** * Further properties of the output stream *)

Lemma firstRealClose_app l k :
  firstRealClose (l ++ k) =
  match firstRealClose l with
  | Some event => Some event
  | None => firstRealClose k
  end.
Proof.
  induction l as [|ev l IH]; [done|].
  destruct ev as [| | |event]; simpl; try done.
  by destruct (isRealExit event).
Qed.

Lemma noExit_deliver msgs name chunks :
  noExit msgs → noExit (msgs ++ (toMessage name <$> chunks)).
Proof.
  intros Hmsgs. apply Forall_app. split; [done|].
  apply Forall_fmap, Forall_true. by destruct name.
Qed.

Lemma StreamInvariant_same options events ev st :
  (closeEvents st = None → status st = Running →
   firstRealClose [ev] = None) →
  StreamInvariant options events st →
  StreamInvariant options (events ++ [ev]) st.
Proof.
  intros Hev (Hmsgs & Hclose & Herr & Hended & Hends).
  split_and!; [exact Hmsgs| |exact Herr| |exact Hends].
  - destruct (closeEvents st) as [[event|err]|].
    + destruct Hclose as [Hfirst Hpred].
      by rewrite firstRealClose_app, Hfirst.
    + destruct Hclose as (event & stderr & Hfirst & Hpred & ->).
      exists event, stderr. by rewrite firstRealClose_app, Hfirst.
    + intros Hrun. rewrite firstRealClose_app, (Hclose Hrun). by apply Hev.
  - intros name Hname. destruct (Hended name Hname) as [Hin|Hmax];
      [left; apply elem_of_app; by left|by right].
Qed.

Lemma StreamInvariant_concat options events st :
  status st = Running →
  StreamInvariant options events st →
  StreamInvariant options events (concatCloseEvents st).
Proof.
  intros Hrun Hinv. pose proof Hinv as (Hmsgs & Hclose & Herr & Hended & _).
  unfold concatCloseEvents.
  destruct (ended (stdoutPipe st) && ended (stderrPipe st)) eqn:Hends;
    [|done].
  apply andb_true_iff in Hends as [Hout Herr'].
  rewrite Hrun in Hmsgs.
  destruct (closeEvents st) as [[event|err]|] eqn:Hce; [| |done].
  - split_and!; simpl.
    + by exists (messages st), event.
    + done.
    + done.
    + intros name Hname. destruct (Hended name Hname) as [|[s Hs]];
        [by left|congruence].
    + done.
  - destruct Hclose as (event & stderr & Hfirst & Hpred & ->).
    split_and!; simpl.
    + done.
    + rewrite Hce. by exists event, stderr.
    + intros err [= <-]. right. by rewrite Hce.
    + intros name Hname. destruct (Hended name Hname) as [|[s Hs]];
        [by left|congruence].
    + done.
Qed.

Lemma outputStep_StreamInvariant options events st ev :
  StreamInvariant options events st →
  StreamInvariant options (events ++ [ev]) (outputStep options st ev).
Proof.
  intros Hinv. pose proof Hinv as (Hmsgs & Hclose & Herr & Hended & Hboth).
  destruct (status st) eqn:Hrun;
    [|rewrite outputStep_ended by congruence;
      apply StreamInvariant_same; [congruence|done]..].
  unfold outputStep. rewrite Hrun.
  assert (∀ name, ended (pipe name st) = true → End_ name ∈ events)
    as Hended'.
  { intros name Hname. destruct (Hended name Hname) as [|[s Hs]];
      [done|congruence]. }
  assert (match closeEvents st with
          | None => firstRealClose (events ++ [ev]) = firstRealClose [ev]
          | Some (inl event) =>
              firstRealClose (events ++ [ev]) = Some event ∧
              exitErrorPredicate options event = false
          | Some (inr err) =>
              ∃ event stderr,
                firstRealClose (events ++ [ev]) = Some event ∧
                exitErrorPredicate options event = true ∧
                err = ProcessExitError (exitCode event) (signal event)
                        stderr None
          end) as Hclose'.
  { rewrite firstRealClose_app.
    destruct (closeEvents st) as [[event|err]|].
    - destruct Hclose as [-> ?]. done.
    - destruct Hclose as (event & stderr & -> & ? & ->). by eexists _, _.
    - by rewrite Hclose. }
  destruct ev as [name data|name|event|event].
  - destruct (ended (pipe name st)) eqn:Hopen;
      [by apply StreamInvariant_same|].
    unfold pipeData.
    destruct (limitBufferSize (maxBuffer options) (pipe name st) data)
      as [total exceeded].
    destruct exceeded.
    + split_and!; simpl.
      * by apply noExit_deliver.
      * destruct (closeEvents st) as [[]|]; [exact Hclose'..|done].
      * intros err [= <-]. left. by eexists.
      * intros n Hn. right. by eexists.
      * intros [|(? & ? & ? & ? & ?)]; done.
    + destruct (chunkByLines options);
        [destruct (splitLines (current (pipe name st)) data)|];
        (split_and!; simpl;
         [rewrite Hrun;
          first [by apply noExit_deliver
                |by apply (noExit_deliver _ name [_])]
         |destruct (closeEvents st) as [[]|];
            [exact Hclose'..|intros _; by rewrite Hclose']
         |rewrite Hrun; done
         |intros n Hn; left; apply elem_of_app; left; apply Hended';
          by destruct name, n; simpl in *
         |rewrite Hrun; intros [|(? & ? & ? & ? & ?)]; done]).
  - destruct (ended (pipe name st)) eqn:Hopen;
      [by apply StreamInvariant_same|].
    apply StreamInvariant_concat; [done|].
    split_and!; simpl.
    + rewrite Hrun. by apply noExit_deliver.
    + destruct (closeEvents st) as [[]|];
        [exact Hclose'..|intros _; by rewrite Hclose'].
    + rewrite Hrun. done.
    + intros n Hn. left. apply elem_of_app.
      destruct (decide (n = name)) as [->|Hne];
        [right; by apply list_elem_of_singleton|].
      left. apply Hended'. by destruct name, n; simpl in *.
    + rewrite Hrun. intros [|(? & ? & ? & ? & ?)]; done.
  - by apply StreamInvariant_same.
  - destruct (closeEvents st) as [r|] eqn:Hce;
      [apply StreamInvariant_same; [congruence|done]|].
    simpl in Hclose'.
    destruct (isRealExit event) eqn:Hreal;
      [|apply StreamInvariant_same; [by simpl; rewrite Hreal|done]].
    apply StreamInvariant_concat; [done|].
    split_and!; simpl.
    + by rewrite Hrun.
    + unfold classifyExit.
      destruct (exitErrorPredicate options event) eqn:Hpred;
        [by eexists _, _|done].
    + rewrite Hrun. done.
    + intros n Hn. left. apply elem_of_app. left. by apply Hended'.
    + rewrite Hrun. intros [|(? & ? & ? & ? & ?)]; done.
Qed.

Lemma getOutputStream_snoc options events ev :
  getOutputStream options (events ++ [ev]) =
  outputStep options (getOutputStream options events) ev.
Proof. unfold getOutputStream. by rewrite foldl_app. Qed.

Lemma getOutputStream_StreamInvariant options events :
  StreamInvariant options events (getOutputStream options events).
Proof.
  induction events as [|ev events IH] using rev_ind.
  - split_and!; simpl;
      [by apply Forall_nil|done|done|by intros []
      |intros [|(? & ? & ? & ? & ?)]; done].
  - rewrite getOutputStream_snoc. by apply outputStep_StreamInvariant.
Qed.

Lemma noExit_lookup msgs i event :
  noExit msgs → msgs !! i ≠ Some (ExitMessage event).
Proof.
  intros Hall Hi. by apply (Forall_lookup_1 _ _ _ _ Hall) in Hi.
Qed.

(** X1.  Whatever the process notifies, [getOutputStream] delivers an exit
    message only as its last message and only when it completes; the
    message is the first ['close'] event that is not a [SIGUSR1] one, and
    [isExitError] does not count it as an error. *)
Theorem exit_message_is_last options events i event :
  messages (getOutputStream options events) !! i = Some (ExitMessage event) →
  S i = length (messages (getOutputStream options events)) ∧
  status (getOutputStream options events) = Completed ∧
  firstRealClose events = Some event ∧
  exitErrorPredicate options event = false.
Proof.
  intros Hi.
  destruct (getOutputStream_StreamInvariant options events)
    as (Hmsgs & Hclose & _).
  destruct (status (getOutputStream options events)) eqn:Hst.
  - by destruct (noExit_lookup _ i event Hmsgs).
  - destruct Hmsgs as (msgs & event' & Heq & Hnone & Hce).
    rewrite Heq in Hi |- *. rewrite Hce in Hclose.
    rewrite length_app. simpl.
    apply lookup_app_Some in Hi as [Hi|[Hge Hi]];
      [by destruct (noExit_lookup _ i event Hnone)|].
    apply list_lookup_singleton_Some in Hi as [Hz [= ->]].
    split_and!; [lia|done|tauto..].
  - by destruct (noExit_lookup _ i event Hmsgs).
Qed.

Lemma exit_message_is_last_witness :
  S 1 = length (messages (getOutputStream noOptions
                  (processRun [(Stdout, "out")] (exitWith 0) []))) ∧
  status (getOutputStream noOptions
            (processRun [(Stdout, "out")] (exitWith 0) [])) = Completed ∧
  firstRealClose (processRun [(Stdout, "out")] (exitWith 0) []) =
    Some (exitWith 0) ∧
  exitErrorPredicate noOptions (exitWith 0) = false.
Proof.
  apply (exit_message_is_last noOptions
           (processRun [(Stdout, "out")] (exitWith 0) []) 1 (exitWith 0)).
  reflexivity.
Defined.

(** X2.  [getOutputStream] completes only after both pipes have ended and
    the process was closed; its last message is then the exit message of
    the first real close, which [isExitError] does not count as an error. *)
Theorem completes_after_ends_and_close options events :
  status (getOutputStream options events) = Completed →
  End_ Stdout ∈ events ∧ End_ Stderr ∈ events ∧
  ∃ event,
    firstRealClose events = Some event ∧
    exitErrorPredicate options event = false ∧
    last (messages (getOutputStream options events)) =
      Some (ExitMessage event).
Proof.
  intros Hst.
  destruct (getOutputStream_StreamInvariant options events)
    as (Hmsgs & Hclose & _ & Hended & Hboth).
  rewrite Hst in Hmsgs, Hended.
  destruct Hmsgs as (msgs & event & Heq & _ & Hce). rewrite Hce in Hclose.
  destruct (Hboth (or_introl Hst)) as [Hout Herr].
  split_and!.
  - destruct (Hended Stdout Hout) as [|[s Hs]]; done.
  - destruct (Hended Stderr Herr) as [|[s Hs]]; done.
  - exists event. rewrite Heq, last_snoc. tauto.
Qed.

Lemma completes_after_ends_and_close_witness :
  End_ Stdout ∈ processRun [(Stdout, "out")] (exitWith 0) [] ∧
  End_ Stderr ∈ processRun [(Stdout, "out")] (exitWith 0) [] ∧
  ∃ event,
    firstRealClose (processRun [(Stdout, "out")] (exitWith 0) []) =
      Some event ∧
    exitErrorPredicate noOptions event = false ∧
    last (messages (getOutputStream noOptions
            (processRun [(Stdout, "out")] (exitWith 0) []))) =
      Some (ExitMessage event).
Proof.
  apply (completes_after_ends_and_close noOptions
           (processRun [(Stdout, "out")] (exitWith 0) [])).
  reflexivity.
Defined.

(** X3.  [getOutputStream] throws a [ProcessExitError] only after both
    pipes have ended and the process was closed: the error has the exit
    code and the signal of the first real close, which [isExitError] counts
    as an error, it has no stdout, and no exit message was delivered. *)
Theorem exit_error_after_ends_and_close options events c s e o :
  status (getOutputStream options events) =
    Errored (ProcessExitError c s e o) →
  End_ Stdout ∈ events ∧ End_ Stderr ∈ events ∧
  noExit (messages (getOutputStream options events)) ∧
  o = None ∧
  ∃ event,
    firstRealClose events = Some event ∧
    exitErrorPredicate options event = true ∧
    c = exitCode event ∧ s = signal event.
Proof.
  intros Hst.
  destruct (getOutputStream_StreamInvariant options events)
    as (Hmsgs & Hclose & Herr & Hended & Hboth).
  rewrite Hst in Hmsgs, Hended.
  destruct (Herr _ Hst) as [[name Hname]|Hce]; [done|].
  rewrite Hce in Hclose.
  destruct Hclose as (event & stderr & Hfirst & Hpred & [= -> -> -> ->]).
  destruct Hboth as [Hout Herr']; [right; by eexists _, _, _, _|].
  split_and!.
  - destruct (Hended Stdout Hout) as [|[n Hn]]; done.
  - destruct (Hended Stderr Herr') as [|[n Hn]]; done.
  - done.
  - done.
  - by exists event.
Qed.

Lemma exit_error_after_ends_and_close_witness :
  End_ Stdout ∈ abcdefRun ∧ End_ Stderr ∈ abcdefRun ∧
  noExit (messages (getOutputStream bufferOfThree abcdefRun)) ∧
  @None string = None ∧
  ∃ event,
    firstRealClose abcdefRun = Some event ∧
    exitErrorPredicate bufferOfThree event = true ∧
    Some 1%Z = exitCode event ∧ None = signal event.
Proof.
  apply (exit_error_after_ends_and_close bufferOfThree abcdefRun
           (Some 1%Z) None "abc" None).
  reflexivity.
Defined.

Lemma outputStep_running options st ev :
  status (outputStep options st ev) = Running → status st = Running.
Proof.
  intros Hstep. destruct (status st) eqn:Hst; [done|..];
    rewrite outputStep_ended in Hstep by congruence; congruence.
Qed.

Lemma concatCloseEvents_running st :
  status (concatCloseEvents st) = Running →
  concatCloseEvents st = st ∧
  (ended (stdoutPipe st) = true → ended (stderrPipe st) = true →
   closeEvents st = None).
Proof.
  unfold concatCloseEvents.
  destruct (ended (stdoutPipe st)), (ended (stderrPipe st)); simpl;
    try (intros _; split; [done|]; by intros).
  destruct (closeEvents st) as [[event|err]|]; simpl; done.
Qed.

Lemma RunningInvariant_idle events ev st :
  (∀ n, ev = End_ n → ended (pipe n st) = true) →
  (closeEvents st = None → firstRealClose [ev] = None) →
  RunningInvariant events st →
  RunningInvariant (events ++ [ev]) st.
Proof.
  intros Hev Hce Hinv Hrun. destruct (Hinv Hrun) as (Hends & Hclose & Hwait).
  split_and!; [| |done].
  - intros n [Hin|Hin%list_elem_of_singleton]%elem_of_app;
      [by apply Hends|by apply Hev].
  - intros e. rewrite firstRealClose_app.
    destruct (firstRealClose events) eqn:Hfirst; [intros _; by eapply Hclose|].
    intros He Hnone. rewrite (Hce Hnone) in He. done.
Qed.

Lemma outputStep_RunningInvariant options events st ev :
  RunningInvariant events st →
  RunningInvariant (events ++ [ev]) (outputStep options st ev).
Proof.
  intros Hinv Hstep.
  pose proof (outputStep_running _ _ _ Hstep) as Hrun.
  destruct (Hinv Hrun) as (Hends & Hclose & Hwait).
  revert Hstep. unfold outputStep. rewrite Hrun.
  destruct ev as [name data|name|event|event].
  - assert (∀ n, End_ n ∈ events ++ [Data name data] →
                 ended (pipe n st) = true) as Hends'.
    { intros n [Hin|Hin%list_elem_of_singleton]%elem_of_app;
        [by apply Hends|done]. }
    assert (∀ e, firstRealClose (events ++ [Data name data]) = Some e →
                 closeEvents st ≠ None) as Hclose'.
    { intros e. rewrite firstRealClose_app.
      destruct (firstRealClose events) eqn:Hfirst; [|done].
      intros _. by eapply Hclose. }
    destruct (ended (pipe name st)) eqn:Hopen; [done|].
    unfold pipeData.
    destruct (limitBufferSize (maxBuffer options) (pipe name st) data)
      as [total exceeded].
    destruct exceeded; [done|]. intros _.
    destruct (chunkByLines options);
      [destruct (splitLines (current (pipe name st)) data)|];
      (split_and!; fields;
       [intros n Hn; specialize (Hends' n Hn);
        destruct name, n; simpl in *; congruence
       |done
       |destruct name; simpl in *; done]).
  - destruct (ended (pipe name st)) eqn:Hopen.
    + intros Hstep. apply RunningInvariant_idle; [congruence|done|done|done].
    + intros [-> Hwait']%concatCloseEvents_running. revert Hwait'. fields.
      intros Hwait'. split_and!; fields.
      * intros n [Hin|Hin%list_elem_of_singleton]%elem_of_app.
        -- specialize (Hends n Hin). by destruct name, n; simpl in *.
        -- injection Hin as ->. by destruct name.
      * intros e. rewrite firstRealClose_app.
        destruct (firstRealClose events) eqn:Hfirst; [|done].
        intros _. by eapply Hclose.
      * done.
  - intros Hstep. by apply RunningInvariant_idle.
  - destruct (closeEvents st) as [r|] eqn:Hce.
    + intros Hstep. apply RunningInvariant_idle; [done|congruence|done|done].
    + destruct (isRealExit event) eqn:Hreal.
      * intros [-> Hwait']%concatCloseEvents_running. revert Hwait'. fields.
        intros Hwait'. split_and!; fields; [|done|done].
        intros n [Hin|Hin%list_elem_of_singleton]%elem_of_app;
          [by apply Hends|done].
      * intros Hstep. apply RunningInvariant_idle; [done| |done|done].
        intros _. simpl. by rewrite Hreal.
Qed.

Lemma getOutputStream_RunningInvariant options events :
  RunningInvariant events (getOutputStream options events).
Proof.
  induction events as [|ev events IH] using rev_ind.
  - intros _. split_and!; [by intros n Hn%elem_of_nil|done|done].
  - rewrite getOutputStream_snoc. by apply outputStep_RunningInvariant.
Qed.

(** X4.  Once both pipes have ended and the process was closed, the stream
    of [getOutputStream] has ended, whatever else the process notified and
    in whatever order.  Without [maxBuffer] it has then completed when
    [isExitError] does not count the first real close as an error, and has
    thrown a [ProcessExitError] with its exit code and signal when it
    does. *)
Theorem ends_and_close_end_the_stream options events event :
  End_ Stdout ∈ events → End_ Stderr ∈ events →
  firstRealClose events = Some event →
  status (getOutputStream options events) ≠ Running ∧
  (maxBuffer options = None →
   if exitErrorPredicate options event
   then ∃ stderr,
          status (getOutputStream options events) =
          Errored (ProcessExitError (exitCode event) (signal event) stderr
                     None)
   else status (getOutputStream options events) = Completed).
Proof.
  intros Hout Herr Hfirst.
  assert (status (getOutputStream options events) ≠ Running) as Hended.
  { intros Hrun.
    destruct (getOutputStream_RunningInvariant options events Hrun)
      as (Hends & Hclose & Hwait).
    apply (Hclose event Hfirst), Hwait.
    - apply (Hends Stdout Hout).
    - apply (Hends Stderr Herr). }
  split; [done|]. intros Hmax.
  destruct (getOutputStream_StreamInvariant options events)
    as (Hmsgs & Hclose & Herror & _).
  destruct (getOutputStream_LimitInvariant options events)
    as (_ & _ & Hlimit).
  destruct (status (getOutputStream options events)) as [| |err] eqn:Hst;
    [done| |].
  - destruct Hmsgs as (msgs & event' & _ & _ & Hce). rewrite Hce in Hclose.
    destruct Hclose as [Hfirst' Hpred].
    assert (event' = event) as -> by congruence. by rewrite Hpred.
  - destruct (Herror err eq_refl) as [[s ->]|Hce].
    + destruct (Hlimit s eq_refl) as (name & m & Hm & _). congruence.
    + rewrite Hce in Hclose.
      destruct Hclose as (event' & stderr & Hfirst' & Hpred & ->).
      assert (event' = event) as -> by congruence. rewrite Hpred.
      by exists stderr.
Qed.

Lemma ends_and_close_end_the_stream_witness :
  status (getOutputStream noOptions
            ([End_ Stderr; Close (exitWith 0); Data Stdout "late";
              End_ Stdout])) ≠ Running ∧
  (maxBuffer noOptions = None →
   if exitErrorPredicate noOptions (exitWith 0)
   then ∃ stderr,
          status (getOutputStream noOptions
                    ([End_ Stderr; Close (exitWith 0); Data Stdout "late";
                      End_ Stdout])) =
          Errored (ProcessExitError (exitCode (exitWith 0))
                     (signal (exitWith 0)) stderr None)
   else status (getOutputStream noOptions
                  ([End_ Stderr; Close (exitWith 0); Data Stdout "late";
                    End_ Stdout])) = Completed).
Proof.
  apply (ends_and_close_end_the_stream noOptions
           [End_ Stderr; Close (exitWith 0); Data Stdout "late"; End_ Stdout]
           (exitWith 0)).
  - by repeat constructor.
  - by repeat constructor.
  - reflexivity.
Defined.

(** ** [SIGUSR1] notifications *)




(** ** When the process is killed *)

Lemma observeProcess_snoc options events ev :
  observeProcess options (events ++ [ev]) =
  observeStep options (observeProcess options events) ev.
Proof. unfold observeProcess. by rewrite foldl_app. Qed.

Lemma observeStep_KillInvariant options events ps ev :
  KillInvariant options events ps →
  KillInvariant options (events ++ [ev]) (observeStep options ps ev).
Proof.
  intros (Hnot & Hwas & Herr & Hwhy & Hfin).
  assert (∀ b, b = true → existsb realExitEvent events = true →
               existsb realExitEvent (events ++ [ev]) = true) as Hmono.
  { intros b _ Hex. by rewrite existsb_app, Hex. }
  unfold observeStep.
  destruct (processStatus ps) eqn:Hps;
    [|split_and!; [done..|intros Hf; by apply (Hmono true), Hfin]..].
  assert (wasKilled ps = false) as Hfalse.
  { destruct (wasKilled ps) eqn:Hw; [|done].
    destruct (Hwhy eq_refl) as [err Hst].
    unfold processStatus in Hps. by rewrite Hst in Hps. }
  assert (finished ps ||
            match ev with Exit event => isRealExit event | _ => false end
          = true → existsb realExitEvent (events ++ [ev]) = true) as Hfin'.
  { rewrite existsb_app. intros [Hf|Hev]%orb_true_iff.
    - by rewrite (Hfin Hf).
    - apply orb_true_iff. right. simpl. rewrite orb_false_r.
      by destruct ev. }
  rewrite Hfalse. simpl negb. rewrite andb_true_l.
  destruct (status (outputStep options (output ps) ev)) eqn:Hst.
  - split_and!; simpl; [by auto|done|by rewrite Hst|done|done].
  - split_and!; simpl; [by auto|done|by rewrite Hst|done|done].
  - destruct (finished ps || _) eqn:Hf; simpl.
    + split_and!; simpl; [by auto|done|done|done|by auto].
    + split_and!; simpl; [done| |done|by eauto|done].
      intros _. by rewrite (Hnot Hfalse).
Qed.

Lemma observeProcess_KillInvariant options events :
  KillInvariant options events (observeProcess options events).
Proof.
  induction events as [|ev events IH] using rev_ind.
  - by split_and!.
  - rewrite observeProcess_snoc. by apply observeStep_KillInvariant.
Qed.


(** ** [observeProcessRaw] *)






(** ** What [runCommandDetailed] and [runCommand] emit *)

Lemma accumulate_exit msgs event acc :
  foldl accumulate acc (msgs ++ [ExitMessage event]) =
  {| stdout := stdout (foldl accumulate acc msgs);
     stderr := stderr (foldl accumulate acc msgs);
     resultExitCode := exitCode event |}.
Proof. by rewrite foldl_app. Qed.



(** X9.  [runCommandDetailed] emits its result only after a real ['exit'],
    the end of both pipes and a real ['close'] of the process, and the exit
    code it emits is that of the first real close, which [isExitError] does
    not count as an error. *)
Theorem runCommandDetailed_emits_after_exit_and_close options events result :
  runCommandDetailed options events = Emitted result →
  (∃ event, Exit event ∈ events ∧ isRealExit event = true) ∧
  End_ Stdout ∈ events ∧ End_ Stderr ∈ events ∧
  ∃ event,
    firstRealClose events = Some event ∧
    exitErrorPredicate options event = false ∧
    resultExitCode result = exitCode event.
Proof.
  unfold runCommandDetailed.
  set (options' := withMaxBuffer _ options).
  destruct (observeProcess_KillInvariant options' events)
    as (_ & _ & _ & _ & Hfin).
  destruct (getOutputStream_StreamInvariant options' events)
    as (Hmsgs & Hclose & _ & Hended & Hboth).
  rewrite <- (observeProcess_output options' events) in *.
  unfold processStatus.
  destruct (status (output (observeProcess options' events))) as [| |err]
    eqn:Hst; [done| |by destruct err].
  destruct (finished (observeProcess options' events)); [|done].
  intros [= <-].
  destruct Hmsgs as (msgs & event & -> & _ & Hce). rewrite Hce in Hclose.
  destruct (Hboth (or_introl eq_refl)) as [Hout Herr].
  split_and!.
  - apply existsb_exists in Hfin as (ev & Hin & Hev); [|done].
    destruct ev as [| |event'|]; try done.
    exists event'. by apply list_elem_of_In in Hin.
  - destruct (Hended Stdout Hout) as [|[s Hs]]; done.
  - destruct (Hended Stderr Herr) as [|[s Hs]]; done.
  - exists event. rewrite accumulate_exit. simpl. tauto.
Qed.

Lemma runCommandDetailed_emits_after_exit_and_close_witness :
  (∃ event, Exit event ∈ processRun [(Stdout, "out")] (exitWith 0) [] ∧
            isRealExit event = true) ∧
  End_ Stdout ∈ processRun [(Stdout, "out")] (exitWith 0) [] ∧
  End_ Stderr ∈ processRun [(Stdout, "out")] (exitWith 0) [] ∧
  ∃ event,
    firstRealClose (processRun [(Stdout, "out")] (exitWith 0) []) =
      Some event ∧
    exitErrorPredicate noOptions event = false ∧
    resultExitCode
      {| stdout := "out"; stderr := ""; resultExitCode := Some 0%Z |} =
      exitCode event.
Proof.
  apply (runCommandDetailed_emits_after_exit_and_close noOptions
           (processRun [(Stdout, "out")] (exitWith 0) [])
           {| stdout := "out"; stderr := ""; resultExitCode := Some 0%Z |}).
  reflexivity.
Defined.

(** * Further properties of the process tree *)

Lemma rootProcessInfo_unknown processes p :
  (∀ info, info ∈ processes → pid info ≠ p) →
  rootProcessInfo processes p = None.
Proof.
  intros Hnone. unfold rootProcessInfo.
  induction processes as [|info processes IH]; [done|].
  rewrite filter_cons_False.
  - apply IH. intros info' Hin. apply Hnone. by right.
  - apply Hnone. by left.
Qed.

(** X10.  For a pid that no row of the process table has,
    [getDescendantsOfProcess] returns the empty list, so
    [killUnixProcessTree] signals nothing, not even the process it was
    given, and returns normally. *)
Theorem unknown_pid_nothing_killed fuel process_kill processes p :
  (∀ info, info ∈ processes → pid info ≠ p) →
  getDescendantsOfProcess (S fuel) processes p = Some [] ∧
  killUnixProcessTree (S fuel) process_kill processes p =
    Some ([], Returned ()).
Proof.
  intros Hnone.
  assert (getDescendantsOfProcess (S fuel) processes p = Some []) as Hdesc.
  { rewrite getDescendantsOfProcess_unfold.
    by rewrite (rootProcessInfo_unknown processes p Hnone). }
  split; [done|]. unfold killUnixProcessTree. by rewrite Hdesc.
Qed.

Lemma unknown_pid_nothing_killed_witness :
  getDescendantsOfProcess 1 chainSnapshot 4242 = Some [] ∧
  killUnixProcessTree 1 killSucceeds chainSnapshot 4242 =
    Some ([], Returned ()).
Proof.
  apply (unknown_pid_nothing_killed 0 killSucceeds chainSnapshot 4242).
  intros info Hin. repeat (apply elem_of_cons in Hin as [->|Hin]; [done|]).
  by apply elem_of_nil in Hin.
Defined.







(** ** [killProcess] *)


(** ** The log of calls *)

Lemma logCalls_snoc shellQuote calls call :
  logCalls shellQuote (calls ++ [call]) =
  logCall shellQuote (logCalls shellQuote calls) call.1.1 call.1.2 call.2.
Proof. unfold logCalls. by rewrite foldl_app. Qed.

(** Either nothing was stripped yet, or the log is the marker followed by
    the [k] most recent calls, with [k] between 51 and 100. *)
Lemma logCalls_shape shellQuote calls :
  (length calls ≤ 101 ∧
   logCalls shellQuote calls = entryOf shellQuote <$> calls) ∨
  (101 < length calls ∧
   ∃ k, 51 ≤ k ≤ 100 ∧
     logCalls shellQuote calls =
     historyStripped ::
       (entryOf shellQuote <$> drop (length calls - k) calls)).
Proof.
  induction calls as [|call calls IH] using rev_ind;
    [left; split; [simpl; lia|done]|].
  rewrite logCalls_snoc, length_app. simpl length.
  unfold logCall, splice0, MAX_LOGGED_CALLS, NUM_PRESERVED_HISTORY_CALLS.
  destruct IH as [[Hlen ->]|[Hlen (k & Hk & ->)]].
  - rewrite length_fmap. case_bool_decide as Hfull.
    + right. split; [lia|]. exists 51. split; [lia|].
      assert (length calls = 101) as Hn by lia. rewrite Hn.
      rewrite drop_app_le by lia. rewrite fmap_app, <- fmap_drop.
      by replace (101 + 1 - 51) with (101 - 50) by lia.
    + left. split; [lia|]. by rewrite fmap_app.
  - simpl length. rewrite length_fmap, length_drop.
    case_bool_decide as Hfull.
    + right. split; [lia|]. exists 51. split; [lia|].
      assert (k = 100) as -> by lia.
      replace (S (length calls - (length calls - 100)) - 50) with 51 by lia.
      rewrite drop_app_le by lia. rewrite fmap_app.
      simpl. rewrite <- fmap_drop, drop_drop.
      by replace (length calls - 100 + 50) with (length calls + 1 - 51)
        by lia.
    + right. split; [lia|]. exists (S k). split; [lia|].
      rewrite drop_app_le by lia. rewrite fmap_app. simpl.
      by replace (length calls + 1 - S k) with (length calls - k) by lia.
Qed.

(** X14.  [loggedCalls] never holds more than 101 entries, and for the
    first 101 calls of [logCall] it holds one entry for each call, in the
    order of the calls: the quoted command line and the duration. *)
Theorem loggedCalls_bounded shellQuote calls :
  length (logCalls shellQuote calls) ≤ 101 ∧
  (length calls ≤ 101 →
   logCalls shellQuote calls = entryOf shellQuote <$> calls).
Proof.
  destruct (logCalls_shape shellQuote calls)
    as [[Hlen ->]|[Hlen (k & Hk & ->)]].
  - by rewrite length_fmap.
  - split; [|lia]. simpl. rewrite length_fmap, length_drop. lia.
Qed.

(** X15.  However many calls were logged, the entries of the 51 most recent
    ones are the end of [loggedCalls], in the order of the calls; once more
    than 101 calls were logged, the first entry is the marker of the
    stripped history and at most 100 entries follow it. *)
Theorem loggedCalls_keeps_recent_history shellQuote calls :
  (entryOf shellQuote <$> drop (length calls - 51) calls)
    `suffix_of` logCalls shellQuote calls ∧
  (101 < length calls →
   head (logCalls shellQuote calls) = Some historyStripped ∧
   ∃ k, 51 ≤ k ≤ 100 ∧
     tail (logCalls shellQuote calls) =
     entryOf shellQuote <$> drop (length calls - k) calls).
Proof.
  destruct (logCalls_shape shellQuote calls)
    as [[Hlen ->]|[Hlen (k & Hk & ->)]].
  - split; [|lia]. rewrite fmap_drop. apply suffix_drop.
  - split; [|intros _; split; [done|by exists k]].
    apply suffix_cons_r.
    replace (length calls - 51) with ((length calls - k) + (k - 51)) by lia.
    rewrite <- drop_drop, fmap_drop. apply suffix_drop.
Qed.

(** * Tables of columns *)

Local Abbreviation chars := String.list_ascii_of_string.
Local Abbreviation str := String.string_of_list_ascii.

Lemma chars_app (s t : string) : chars (s +:+ t) = chars s ++ chars t.
Proof. induction s as [|c s IH]; simpl; [done|]. by rewrite IH. Qed.

Lemma str_app (l k : list ascii) : str (l ++ k) = str l +:+ str k.
Proof. induction l as [|c l IH]; simpl; [done|]. by rewrite IH. Qed.

Lemma chars_str (l : list ascii) : chars (str l) = l.
Proof. apply String.list_ascii_of_string_of_list_ascii. Qed.

Lemma str_chars (s : string) : str (chars s) = s.
Proof. apply String.string_of_list_ascii_of_string. Qed.

Lemma chars_joinAll (l : list string) :
  chars (joinAll l) = concat (chars <$> l).
Proof.
  induction l as [|s l IH]; [done|].
  unfold joinAll in *. simpl. by rewrite chars_app, IH.
Qed.

(** ** [trim] *)

Lemma dropSpaces_spaces (l k : list ascii) :
  Forall (λ c, isSpace c = true) l → dropSpaces (l ++ k) = dropSpaces k.
Proof.
  induction 1 as [|c l Hc _ IH]; [done|]. simpl. by rewrite Hc.
Qed.

Lemma dropSpaces_nonspace c (k : list ascii) :
  isSpace c = false → dropSpaces (c :: k) = c :: k.
Proof. intros Hc. simpl. by rewrite Hc. Qed.

(** A text that starts and ends with a character that is no whitespace is
    what [trim] leaves of it and the whitespace around it. *)
Lemma trim_core (before core after : list ascii) first last_ middle :
  Forall (λ c, isSpace c = true) before →
  Forall (λ c, isSpace c = true) after →
  core = first :: middle → isSpace first = false →
  (∃ init, core = init ++ [last_]) → isSpace last_ = false →
  trim (str (before ++ core ++ after)) = str core.
Proof.
  intros Hbefore Hafter Hstart Hfirst [init Hend] Hlast.
  unfold trim. rewrite chars_str, dropSpaces_spaces by done.
  rewrite Hstart at 1. rewrite <- app_comm_cons, dropSpaces_nonspace by done.
  rewrite app_comm_cons, <- Hstart, rev_app_distr.
  rewrite dropSpaces_spaces by (by apply Forall_rev).
  rewrite Hend, rev_app_distr. simpl. rewrite Hlast.
  change (last_ :: rev init) with (rev [last_] ++ rev init).
  by rewrite <- rev_app_distr, rev_involutive.
Qed.

Lemma trim_whitespace (s : string) : whitespace s → trim s = "".
Proof.
  intros Hs. unfold trim.
  rewrite <- (app_nil_r (chars s)), dropSpaces_spaces by done. done.
Qed.

(** ** [split(/\s+/)] *)

Lemma splitSpaces_word (w : list ascii) : ∀ current inSeparator rest,
  Forall (λ c, isSpace c = false) w → w ≠ [] →
  splitSpaces current inSeparator (w ++ rest) =
  splitSpaces (current ++ w) false rest.
Proof.
  induction w as [|c w IH]; intros current b rest Hw Hne; [done|].
  apply Forall_cons in Hw as [Hc Hw]. simpl. rewrite Hc.
  destruct w as [|c' w].
  - done.
  - rewrite IH by done. by rewrite <- (assoc_L (++)).
Qed.

Lemma splitSpaces_more_spaces (p : list ascii) : ∀ current rest,
  Forall (λ c, isSpace c = true) p →
  splitSpaces current true (p ++ rest) = splitSpaces current true rest.
Proof.
  induction p as [|c p IH]; intros current rest Hp; [done|].
  apply Forall_cons in Hp as [Hc Hp]. simpl. rewrite Hc. by apply IH.
Qed.

Lemma splitSpaces_separator (p : list ascii) current rest :
  Forall (λ c, isSpace c = true) p → p ≠ [] →
  splitSpaces current false (p ++ rest) =
  str current :: splitSpaces [] true rest.
Proof.
  destruct p as [|c p]; [done|]. intros [Hc Hp]%Forall_cons _.
  simpl. rewrite Hc. by rewrite splitSpaces_more_spaces.
Qed.

Lemma blank_whitespace (s : string) : blank s → whitespace s.
Proof.
  intros Hs. eapply Forall_impl; [exact Hs|]. simpl. tauto.
Qed.

Lemma chars_nonempty (s : string) : s ≠ "" → chars s ≠ [].
Proof. by destruct s. Qed.

Lemma splitSpaces_columns (more : list (string * string)) : ∀ current,
  Forall (λ column, column.1 ≠ "" ∧ blank column.1 ∧ word column.2) more →
  splitSpaces current false
    (concat ((λ column, chars column.1 ++ chars column.2) <$> more)) =
  str current :: more.*2.
Proof.
  induction more as [|[sep w] more IH]; intros current Hmore; [done|].
  apply Forall_cons in Hmore as [(Hne & Hsep & Hw1 & Hw2) Hmore].
  simpl in *. rewrite <- (assoc_L (++)).
  rewrite splitSpaces_separator
    by (by apply blank_whitespace || by apply chars_nonempty).
  rewrite splitSpaces_word by (done || by apply chars_nonempty).
  rewrite IH by done. simpl. by rewrite str_chars.
Qed.

(** The characters of the columns of a line with their separators. *)
Lemma chars_lineText (l : Line) :
  chars (lineText l) =
  chars (lead l) ++
  (chars (firstColumn l) ++
   concat ((λ column, chars column.1 ++ chars column.2) <$> moreColumns l))
  ++ chars (trail l).
Proof.
  unfold lineText. rewrite !chars_app, chars_joinAll, <- !(assoc_L (++)).
  do 3 f_equal. rewrite <- list_fmap_compose. f_equal.
  apply list_fmap_ext. intros i column _. simpl. by rewrite chars_app.
Qed.

Lemma word_first (w : string) :
  word w → ∃ c rest, chars w = c :: rest ∧ isSpace c = false.
Proof.
  intros [Hne Hw]. destruct w as [|c w]; [done|].
  apply Forall_cons in Hw as [Hc _]. by exists c, (chars w).
Qed.

Lemma word_last (w : string) :
  word w → ∃ init c, chars w = init ++ [c] ∧ isSpace c = false.
Proof.
  intros [Hne Hw].
  destruct (chars w) as [|c l] eqn:Hchars using rev_ind.
  - by destruct w.
  - apply Forall_app in Hw as [_ [Hc _]%Forall_cons]. by exists l, c.
Qed.

Lemma columns_last (first : string) (more : list (string * string)) :
  word first →
  Forall (λ column, column.1 ≠ "" ∧ blank column.1 ∧ word column.2) more →
  ∃ init c,
    chars first ++
    concat ((λ column, chars column.1 ++ chars column.2) <$> more) =
    init ++ [c] ∧ isSpace c = false.
Proof.
  revert first. induction more as [|[sep w] more IH]; intros first Hw Hmore.
  - destruct (word_last first Hw) as (init & c & Hinit & Hc).
    exists init, c. simpl. by rewrite app_nil_r.
  - apply Forall_cons in Hmore as [(_ & _ & Hw') Hmore].
    destruct (IH w Hw' Hmore) as (init & c & Hinit & Hc).
    exists (chars first ++ chars sep ++ init), c. split; [|done].
    simpl in *. rewrite <- !(assoc_L (++)). do 2 f_equal.
    by rewrite <- Hinit.
Qed.

Lemma columnsOf_lineText_whitespace (l : Line) :
  whitespace (lead l) → whitespace (trail l) → word (firstColumn l) →
  Forall (λ column, column.1 ≠ "" ∧ blank column.1 ∧ word column.2)
    (moreColumns l) →
  columnsOf (lineText l) = lineColumns l.
Proof.
  intros Hlead Htrail Hfirst Hmore. unfold columnsOf.
  destruct (word_first _ Hfirst) as (c & rest & Hc & Hspace).
  destruct (columns_last _ _ Hfirst Hmore) as (init & c' & Hinit & Hspace').
  rewrite <- (str_chars (lineText l)), chars_lineText.
  erewrite trim_core; [|done|done| |exact Hspace|by eexists|exact Hspace'].
  - rewrite chars_str. destruct Hfirst as [Hne Hw].
    rewrite splitSpaces_word by (done || by apply chars_nonempty).
    rewrite splitSpaces_columns by done. simpl. by rewrite str_chars.
  - rewrite Hc. by rewrite <- app_comm_cons.
Qed.

(** ** [parseInt] reads what numbers print as *)

Lemma digitValue_pretty (d : N) :
  (d < 10)%N → digitValue (pretty_N_char d) = Some (Z.of_N d).
Proof.
  intros Hd.
  assert (∃ n : nat, d = N.of_nat n ∧ n < 10) as (n & -> & Hn).
  { exists (N.to_nat d). lia. }
  do 10 (destruct n as [|n]; [by vm_compute|]). lia.
Qed.

Lemma pretty_N_char_plain (d : N) :
  isSpace (pretty_N_char d) = false ∧
  Ascii.eqb (pretty_N_char d) "-" = false ∧
  Ascii.eqb (pretty_N_char d) "+" = false.
Proof. unfold pretty_N_char. by repeat case_match. Qed.

Lemma pretty_N_go_nonspace (x : N) : ∀ s,
  Forall (λ c, isSpace c = false) (chars s) →
  Forall (λ c, isSpace c = false) (chars (pretty_N_go x s)).
Proof.
  induction (N.lt_wf_0 x) as [x _ IH]; intros s Hs.
  assert (x = 0 ∨ 0 < x)%N as [->|Hpos] by lia; [done|].
  rewrite pretty_N_go_step by done. apply IH.
  - by apply N.div_lt.
  - simpl. apply Forall_cons. split; [|done]. apply pretty_N_char_plain.
Qed.

Lemma pretty_N_go_head (x : N) : ∀ s,
  (0 < x)%N → ∃ d rest, pretty_N_go x s = String (pretty_N_char d) rest.
Proof.
  induction (N.lt_wf_0 x) as [x _ IH]; intros s Hpos.
  rewrite pretty_N_go_step by done.
  destruct (N.eq_0_gt_0_cases (x `div` 10)) as [->|Hdiv].
  - by eexists _, _.
  - apply IH; [by apply N.div_lt|done].
Qed.

Lemma parseDigits_pretty_N_go (x : N) : ∀ s,
  (0 < x)%N →
  parseDigits None (chars (pretty_N_go x s)) =
  parseDigits (Some (Z.of_N x)) (chars s).
Proof.
  induction (N.lt_wf_0 x) as [x _ IH]; intros s Hpos.
  rewrite pretty_N_go_step by done.
  assert (x `mod` 10 < 10)%N as Hmod by (by apply N.mod_lt).
  assert (x = 10 * x `div` 10 + x `mod` 10)%N as Hdiv
    by (by apply N.div_mod).
  destruct (N.eq_0_gt_0_cases (x `div` 10)) as [Hzero|Hmore].
  - rewrite Hzero, pretty_N_go_0. simpl.
    rewrite digitValue_pretty by lia. simpl. do 2 f_equal. lia.
  - rewrite IH by (by apply N.div_lt || done). simpl.
    rewrite digitValue_pretty by lia. simpl. do 2 f_equal. lia.
Qed.

Lemma pretty_positive_parse (p : positive) :
  ∃ c rest,
    chars (pretty p) = c :: rest ∧ isSpace c = false ∧
    Ascii.eqb c "-" = false ∧ Ascii.eqb c "+" = false ∧
    parseDigits None (c :: rest) = Some (Z.pos p).
Proof.
  unfold pretty, pretty_positive, pretty, pretty_N.
  rewrite decide_False by done.
  destruct (pretty_N_go_head (N.pos p) "") as (d & rest & Hhead); [done|].
  exists (pretty_N_char d), (chars rest).
  destruct (pretty_N_char_plain d) as (Hspace & Hminus & Hplus).
  split_and!; [by rewrite Hhead|done..|].
  change (pretty_N_char d :: chars rest)
    with (chars (String (pretty_N_char d) rest)).
  rewrite <- Hhead. by rewrite parseDigits_pretty_N_go.
Qed.


Lemma pretty_Z_word (z : Z) : word (pretty z).
Proof.
  assert (∀ p : positive, word (pretty p)) as Hpos.
  { intros p. split.
    - destruct (pretty_positive_parse p) as (c & rest & Hchars & _).
      by destruct (pretty p).
    - unfold pretty, pretty_positive, pretty, pretty_N.
      rewrite decide_False by done. by apply pretty_N_go_nonspace. }
  destruct z as [|p|p].
  - split; [done|]. by repeat constructor.
  - apply Hpos.
  - change (pretty (Z.neg p)) with ("-" +:+ pretty p).
    split; [done|]. simpl. apply Forall_cons. split; [done|]. apply Hpos.
Qed.

(** ** [split(/\n|\r\n/)] *)




Lemma nonspace_lineChar c :
  isSpace c = false → c ≠ "010"%char ∧ c ≠ "013"%char.
Proof. intros Hc. split; by intros ->. Qed.

Lemma blank_lineChars (s : string) :
  blank s → Forall (λ c, c ≠ "010"%char ∧ c ≠ "013"%char) (chars s).
Proof. intros Hs. eapply Forall_impl; [exact Hs|]. simpl. tauto. Qed.

Lemma word_lineChars (s : string) :
  word s → Forall (λ c, c ≠ "010"%char ∧ c ≠ "013"%char) (chars s).
Proof.
  intros [_ Hs]. eapply Forall_impl; [exact Hs|]. apply nonspace_lineChar.
Qed.

Lemma columns_lineChars (first : string) (more : list (string * string)) :
  word first →
  Forall (λ column, column.1 ≠ "" ∧ blank column.1 ∧ word column.2) more →
  Forall (λ c, c ≠ "010"%char ∧ c ≠ "013"%char)
    (chars first ++
     concat ((λ column, chars column.1 ++ chars column.2) <$> more)).
Proof.
  intros Hfirst Hmore. apply Forall_app. split; [by apply word_lineChars|].
  apply Forall_concat, Forall_fmap.
  eapply Forall_impl; [exact Hmore|]. intros [sep w] (_ & Hsep & Hw). simpl.
  apply Forall_app. split; [by apply blank_lineChars|by apply word_lineChars].
Qed.

Lemma lineText_lineChars (l : Line) :
  wellSpaced l →
  Forall (λ c, c ≠ "010"%char ∧ c ≠ "013"%char) (chars (lineText l)).
Proof.
  intros (Hlead & Htrail & Hfirst & Hmore). rewrite chars_lineText.
  apply Forall_app. split; [by apply blank_lineChars|].
  apply Forall_app. split; [|by apply blank_lineChars].
  by apply columns_lineChars.
Qed.



(** ** Reading the process table *)

Lemma lastBinding_foldl `{Countable K} {V} (entries : list (K * V)) key :
  foldl (λ (m : gmap K V) entry, <[entry.1 := entry.2]> m) ∅ entries !! key =
  lastBinding key entries.
Proof.
  unfold lastBinding.
  induction entries as [|entry entries IH] using rev_ind; [done|].
  rewrite foldl_app, filter_app. simpl.
  destruct (decide (entry.1 = key)) as [Hkey|Hkey].
  - rewrite filter_cons_True, filter_nil by done.
    by rewrite last_snoc, <- Hkey, lookup_insert_eq.
  - rewrite filter_cons_False, filter_nil, app_nil_r by done.
    by rewrite lookup_insert_ne.
Qed.

(** Discharge the layout conditions of a concrete table. *)
Ltac layout :=
  unfold wellFormedRows, wellSpaced, lineBreak, blank, whitespace, word;
  simpl;
  repeat first [done | split | constructor; simpl | by left | by right].





(** ** [split] at a character *)

Lemma splitChar_piece separator (l : list ascii) : ∀ current rest,
  Forall (λ c, c ≠ separator) l →
  splitChar separator current (l ++ separator :: rest) =
  str (current ++ l) :: splitChar separator [] rest.
Proof.
  induction l as [|c l IH]; intros current rest Hl.
  - simpl. by rewrite Ascii.eqb_refl, app_nil_r.
  - apply Forall_cons in Hl as [Hc Hl]. simpl.
    rewrite (proj2 (Ascii.eqb_neq _ _) Hc), IH by done.
    by rewrite <- (assoc_L (++)).
Qed.

Lemma splitChar_last separator (l : list ascii) : ∀ current,
  Forall (λ c, c ≠ separator) l →
  splitChar separator current l = [str (current ++ l)].
Proof.
  induction l as [|c l IH]; intros current Hl.
  - simpl. by rewrite app_nil_r.
  - apply Forall_cons in Hl as [Hc Hl]. simpl.
    rewrite (proj2 (Ascii.eqb_neq _ _) Hc), IH by done.
    by rewrite <- (assoc_L (++)).
Qed.

Lemma joinAll_cons (s : string) (l : list string) :
  joinAll (s :: l) = s +:+ joinAll l.
Proof. done. Qed.

Lemma splitChar_linesText (lines : list Line) :
  Forall wellSpaced lines →
  splitChar "010" [] (chars (linesText lines)) =
  (lineText <$> lines) ++ [""].
Proof.
  unfold linesText. induction 1 as [|l lines Hl _ IH]; [done|].
  rewrite fmap_cons, joinAll_cons, !chars_app, <- (assoc_L (++)).
  change (chars (String newline "")) with ["010"%char].
  rewrite <- (app_comm_cons []), app_nil_l, splitChar_piece.
  - rewrite IH. simpl. by rewrite str_chars.
  - eapply Forall_impl; [by apply lineText_lineChars|]. simpl. tauto.
Qed.

(** ** Memory usage *)



(** ** The original environment *)

Lemma splitChar_joinNul (pieces : list string) :
  Forall (λ piece, Forall (λ c, c ≠ "000"%char) (chars piece)) pieces →
  pieces ≠ [] →
  splitChar "000" [] (chars (joinNul pieces)) = pieces.
Proof.
  induction 1 as [|piece pieces Hpiece Hpieces IH]; intros Hne; [done|].
  destruct pieces as [|piece' pieces].
  - simpl. rewrite splitChar_last by done. simpl. by rewrite str_chars.
  - change (joinNul (piece :: piece' :: pieces))
      with (piece +:+ String "000" "" +:+ joinNul (piece' :: pieces)).
    rewrite !chars_app.
    change (chars (String "000" "")) with ["000"%char].
    rewrite <- (app_comm_cons []), app_nil_l, splitChar_piece by done.
    rewrite IH by done. simpl. by rewrite str_chars.
Qed.

Lemma indexOf_app c (k rest : string) :
  Forall (λ x, x ≠ c) (chars k) →
  indexOf c (k +:+ String c rest) = Some (String.length k).
Proof.
  induction k as [|x k IH]; intros Hk; simpl.
  - by rewrite Ascii.eqb_refl.
  - apply Forall_cons in Hk as [Hx Hk].
    rewrite (proj2 (Ascii.eqb_neq _ _) Hx), IH by done. done.
Qed.

Lemma substring_app_l (k rest : string) :
  String.substring 0 (String.length k) (k +:+ rest) = k.
Proof.
  rewrite substring_0_app_ge by done. by apply substring_0_all.
Qed.

Lemma substringFrom_app c (k rest : string) :
  substringFrom (String.length k + 1) (k +:+ String c rest) = rest.
Proof.
  unfold substringFrom. induction k as [|x k IH]; simpl.
  - rewrite Nat.sub_0_r. by apply substring_0_all.
  - exact IH.
Qed.

(** The loop of [getOriginalEnvironment] on a list of variables. *)
Lemma parseOriginalEnv_entries (entries : list (string * string)) key :
  Forall validEntry entries → entries ≠ [] →
  parseOriginalEnv (joinNul (envVarOf <$> entries)) !! key =
  lastBinding key (filter (λ entry, entry.1 ≠ "__proto__") entries).
Proof.
  intros Hvalid Hne. unfold parseOriginalEnv.
  rewrite splitChar_joinNul.
  - rewrite <- lastBinding_foldl. clear Hne. unfold Env.
    generalize (∅ : gmap string string).
    induction Hvalid as [|[k v] entries [Hk Hv] _ IH]; intros m; [done|].
    rewrite fmap_cons. cbn [foldl].
    change (envVarOf (k, v)) with (k +:+ String "=" v).
    rewrite indexOf_app, substring_app_l, substringFrom_app.
    + unfold setProperty.
      destruct (String.eqb_spec k "__proto__") as [->|Hkey].
      * rewrite filter_cons_False by (simpl; tauto). apply IH.
      * rewrite filter_cons_True by done. apply IH.
    + eapply Forall_impl; [exact Hk|]. simpl. tauto.
  - apply Forall_fmap. eapply Forall_impl; [exact Hvalid|].
    intros [k v] [Hk Hv]. unfold envVarOf. simpl.
    rewrite !chars_app. apply Forall_app. split.
    + eapply Forall_impl; [exact Hk|]. simpl. tauto.
    + simpl. by constructor.
  - by destruct entries.
Qed.

Lemma envVars_nulfree (entries : list (string * string)) :
  Forall validEntry entries →
  Forall (λ piece, Forall (λ c, c ≠ "000"%char) (chars piece))
    (envVarOf <$> entries).
Proof.
  intros Hvalid. apply Forall_fmap. eapply Forall_impl; [exact Hvalid|].
  intros [k v] [Hk Hv]. unfold envVarOf. simpl.
  rewrite !chars_app. apply Forall_app. split.
  - eapply Forall_impl; [exact Hk|]. simpl. tauto.
  - simpl. by constructor.
Qed.

Lemma lastBinding_is_Some `{EqDecision K} {V} (entries : list (K * V)) entry :
  entry ∈ entries → is_Some (lastBinding entry.1 entries).
Proof.
  intros Hin. unfold lastBinding. apply fmap_is_Some, last_is_Some.
  intros Hnil.
  assert (entry ∈ filter (λ e, e.1 = entry.1) entries) as Hfilter
    by (by apply list_elem_of_filter).
  rewrite Hnil in Hfilter. by apply elem_of_nil in Hfilter.
Qed.

(** X19.  When [NUCLIDE_ORIGINAL_ENV] decodes to variables [NAME=value]
    separated by NUL characters, the first call of [getOriginalEnvironment]
    returns an object of its own in which every name has its value: the
    variable is cut at its first [=], so that a value may contain [=]; of
    two variables with the same name the later one counts; and a variable
    named [__proto__] is not there.  [getOriginalEnvironmentArray] returns
    the variables as they are, in their order. *)
Theorem getOriginalEnvironment_reads_variables
    base64Decode processEnv original entries :
  processEnv !! "NUCLIDE_ORIGINAL_ENV" = Some original →
  trim original ≠ "" →
  base64Decode original = joinNul (envVarOf <$> entries) →
  Forall validEntry entries →
  (∃ entry, entry ∈ entries ∧ entry.1 ≠ "__proto__") →
  ∃ own,
    getOriginalEnvironment base64Decode processEnv None =
      (OwnEnv own, Some (OwnEnv own)) ∧
    (∀ key, own !! key =
            lastBinding key
              (filter (λ entry, entry.1 ≠ "__proto__") entries)) ∧
    getOriginalEnvironmentArray base64Decode processEnv =
      envVarOf <$> entries.
Proof.
  intros Henv Htrim Hdecode Hvalid (entry & Hin & Hname).
  assert (entries ≠ []) as Hne by (intros ->; by apply elem_of_nil in Hin).
  exists (parseOriginalEnv (joinNul (envVarOf <$> entries))).
  unfold getOriginalEnvironment, getOriginalEnvironmentArray.
  rewrite Henv, Hdecode.
  rewrite (proj2 (String.eqb_neq _ _) Htrim). simpl negb. cbv iota.
  split_and!.
  - rewrite bool_decide_eq_false_2; [done|].
    intros Hdom%dom_empty_iff_L.
    destruct (lastBinding_is_Some
                (filter (λ e, e.1 ≠ "__proto__") entries) entry)
      as [value Hvalue]; [by apply list_elem_of_filter|].
    rewrite <- parseOriginalEnv_entries in Hvalue by done.
    by rewrite Hdom in Hvalue.
  - intros key. by apply parseOriginalEnv_entries.
  - apply splitChar_joinNul; [by apply envVars_nulfree|by destruct entries].
Qed.

Lemma getOriginalEnvironment_reads_variables_witness :
  ∃ own,
    getOriginalEnvironment base64Example processEnvExample None =
      (OwnEnv own, Some (OwnEnv own)) ∧
    (∀ key, own !! key =
            lastBinding key
              (filter (λ entry, entry.1 ≠ "__proto__") originalExample)) ∧
    getOriginalEnvironmentArray base64Example processEnvExample =
      envVarOf <$> originalExample.
Proof.
  apply (getOriginalEnvironment_reads_variables base64Example
           processEnvExample "SE9NRT0..." originalExample).
  - done.
  - done.
  - done.
  - repeat constructor; simpl; done.
  - exists ("HOME", "/home/user"). split; [by left|done].
Defined.

Lemma splitChar_joinNul_any (pieces : list string) :
  Forall (λ piece, Forall (λ c, c ≠ "000"%char) (chars piece)) pieces →
  splitChar "000" [] (chars (joinNul pieces)) =
  if decide (pieces = []) then [""] else pieces.
Proof.
  intros Hpieces. destruct (decide (pieces = [])) as [->|Hne]; [done|].
  by apply splitChar_joinNul.
Qed.

(** X20.  [getOriginalEnvironment] answers once: every later call returns
    the object of the first call, whatever [process.env] has become.  That
    object is [process.env] itself when [NUCLIDE_ORIGINAL_ENV] is absent or
    blank at the first call, and when none of the pieces it decodes to has
    a [=]. *)
Theorem getOriginalEnvironment_answers_once
    base64Decode processEnv laterEnv cache :
  getOriginalEnvironment base64Decode laterEnv
    (getOriginalEnvironment base64Decode processEnv cache).2 =
    getOriginalEnvironment base64Decode processEnv cache ∧
  (processEnv !! "NUCLIDE_ORIGINAL_ENV" = None →
   getOriginalEnvironment base64Decode processEnv None =
     (ProcessEnv, Some ProcessEnv)) ∧
  (∀ original,
     processEnv !! "NUCLIDE_ORIGINAL_ENV" = Some original →
     whitespace original →
     getOriginalEnvironment base64Decode processEnv None =
       (ProcessEnv, Some ProcessEnv)) ∧
  (∀ original pieces,
     processEnv !! "NUCLIDE_ORIGINAL_ENV" = Some original →
     base64Decode original = joinNul pieces →
     Forall (λ piece, Forall (λ c, c ≠ "000"%char ∧ c ≠ "="%char)
                        (chars piece)) pieces →
     getOriginalEnvironment base64Decode processEnv None =
       (ProcessEnv, Some ProcessEnv)).
Proof.
  split_and!.
  - by destruct cache.
  - intros Henv. unfold getOriginalEnvironment. by rewrite Henv.
  - intros original Henv Hblank. unfold getOriginalEnvironment.
    by rewrite Henv, trim_whitespace.
  - intros original pieces Henv Hdecode Hpieces.
    unfold getOriginalEnvironment. rewrite Henv, Hdecode.
    assert (parseOriginalEnv (joinNul pieces) = ∅) as ->.
    { unfold parseOriginalEnv. rewrite splitChar_joinNul_any.
      - destruct (decide (pieces = [])) as [->|_]; [done|].
        clear Hdecode. induction Hpieces as [|piece pieces Hpiece _ IH]; [done|].
        cbn [foldl].
        assert (indexOf "=" piece = None) as ->; [|exact IH].
        clear IH. induction piece as [|c piece IH]; [done|].
        apply Forall_cons in Hpiece as [[_ Hc] Hpiece]. simpl.
        rewrite (proj2 (Ascii.eqb_neq _ _) Hc). by rewrite IH.
      - eapply Forall_impl; [exact Hpieces|]. intros piece Hpiece.
        eapply Forall_impl; [exact Hpiece|]. simpl. tauto. }
    rewrite bool_decide_eq_true_2 by apply dom_empty_L.
    by destruct (negb _).
Qed.

(** * Further properties of the output stream: the text passed on *)

(** A step that passes nothing new on for the pipe [name]. *)
Lemma TextInvariant_idle options events ev st st' name :
  textOf name st' = textOf name st →
  (current (pipe name st) = "" → current (pipe name st') = "") →
  (status st' = Running → ended (pipe name st') = false →
   status st = Running ∧ ended (pipe name st) = false ∧
   dataOf name [ev] = []) →
  TextInvariant options events st name →
  TextInvariant options (events ++ [ev]) st' name.
Proof.
  intros Htext Hcurrent Hopen (rest & Hrest & Hall & Hraw).
  exists (rest +:+ joinAll (dataOf name [ev])). split_and!.
  - by rewrite dataOf_app, joinAll_app, Hrest, Htext, app_assoc_s.
  - intros Hrun Hpipe. destruct (Hopen Hrun Hpipe) as (Hrun' & Hpipe' & ->).
    by rewrite (Hall Hrun' Hpipe').
  - intros Hlines. by apply Hcurrent, Hraw.
Qed.

Lemma textOf_concatCloseEvents name st :
  textOf name (concatCloseEvents st) = textOf name st ∧
  pipe name (concatCloseEvents st) = pipe name st ∧
  (status (concatCloseEvents st) = Running → status st = Running).
Proof.
  unfold concatCloseEvents.
  destruct (ended (stdoutPipe st) && ended (stderrPipe st)); [|done].
  destruct (closeEvents st) as [[event|err]|]; [|done..].
  split_and!; [|done..]. unfold textOf. simpl.
  rewrite chunksOf_app. simpl. destruct name; by rewrite app_nil_r.
Qed.

Lemma textOf_flush name n st p :
  current p = "" →
  textOf name (withPipe n p (deliver n (onEnd (pipe n st)) st)) =
  textOf name st.
Proof.
  intros Hp. unfold textOf. fields.
  rewrite chunksOf_app, chunksOf_toMessage, joinAll_app.
  destruct n, name; simpl; rewrite ?joinAll_onEnd, ?Hp, ?app_empty_r; done.
Qed.

Lemma outputStep_TextInvariant options events st ev name :
  TextInvariant options events st name →
  TextInvariant options (events ++ [ev]) (outputStep options st ev) name.
Proof.
  intros Hinv.
  destruct (status st) eqn:Hrun;
    [|rewrite outputStep_ended by congruence;
      apply (TextInvariant_idle options events _ st); [done|done|congruence|done]..].
  unfold outputStep. rewrite Hrun.
  destruct ev as [n data|n|event|event].
  - destruct (ended (pipe n st)) eqn:Hopen.
    { apply (TextInvariant_idle options events _ st); [done|done| |done].
      intros _ Hname. split_and!; [done..|].
      unfold dataOf. simpl. destruct (decide (n = name)) as [->|]; [|done].
      congruence. }
    unfold pipeData.
    destruct (limitBufferSize (maxBuffer options) (pipe n st) data)
      as [total exceeded].
    destruct exceeded.
    { apply (TextInvariant_idle options events _ st); [by apply textOf_flush| |done|done].
      destruct n, name; simpl; done. }
    destruct (decide (n = name)) as [->|Hne].
    + destruct Hinv as (rest & Hrest & Hall & Hraw).
      rewrite (Hall Hrun Hopen), app_empty_r in Hrest.
      exists "". rewrite app_empty_r, dataOf_app, joinAll_app, Hrest.
      unfold dataOf at 1. simpl. rewrite decide_True by done. simpl.
      rewrite app_empty_r.
      destruct (chunkByLines options) eqn:Hlines.
      * pose proof (splitLines_join data (current (pipe name st))) as Hjoin.
        destruct (splitLines (current (pipe name st)) data) as [lines last_].
        simpl in Hjoin. split_and!; [|done|done].
        unfold textOf. fields.
        rewrite chunksOf_app, chunksOf_toMessage, decide_True by done.
        rewrite joinAll_app.
        destruct name; simpl; by rewrite !app_assoc_s, Hjoin.
      * specialize (Hraw eq_refl). split_and!; [|done|].
        -- unfold textOf. fields.
           rewrite chunksOf_app, (chunksOf_toMessage name name [data]).
           rewrite decide_True by done. rewrite joinAll_app. simpl.
           rewrite Hraw. destruct name; simpl; by rewrite !app_empty_r.
        -- intros _. destruct name; simpl; done.
    + destruct (chunkByLines options);
        [destruct (splitLines (current (pipe n st)) data) as [lines last_]|];
        (apply (TextInvariant_idle options events _ st); [| | |done];
         [unfold textOf; fields;
          rewrite chunksOf_app, ?chunksOf_toMessage,
            ?(chunksOf_toMessage name n [data]);
          rewrite decide_False by done; simpl;
          by destruct n, name; simpl; rewrite ?app_nil_r
         |by destruct n, name
         |intros _ Hname; split_and!;
            [done|by destruct n, name|];
          unfold dataOf; simpl; by rewrite decide_False by done]).
  - destruct (ended (pipe n st)) eqn:Hopen;
      [apply (TextInvariant_idle options events _ st); [done|done|by intros|done]|].
    match goal with
    | |- TextInvariant _ _ (concatCloseEvents ?s) _ =>
        destruct (textOf_concatCloseEvents name s) as (Htext & Hpipe & Hst)
    end.
    apply (TextInvariant_idle options events _ st); [| | |done].
    + rewrite Htext. by apply textOf_flush.
    + rewrite Hpipe. destruct n, name; simpl; done.
    + rewrite Hpipe. intros Hrun'%Hst Hname. split_and!; [done| |done].
      destruct n, name; simpl in *; done.
  - by apply (TextInvariant_idle options events _ st).
  - destruct (closeEvents st) as [r|];
      [by apply (TextInvariant_idle options events _ st)|].
    destruct (isRealExit event); [|by apply (TextInvariant_idle options events _ st)].
    match goal with
    | |- TextInvariant _ _ (concatCloseEvents ?s) _ =>
        destruct (textOf_concatCloseEvents name s) as (Htext & Hpipe & Hst)
    end.
    apply (TextInvariant_idle options events _ st); [by rewrite Htext|by rewrite Hpipe| |done].
    rewrite Hpipe. intros _ Hname. by split_and!.
Qed.

Lemma getOutputStream_TextInvariant options events name :
  TextInvariant options events (getOutputStream options events) name.
Proof.
  induction events as [|ev events IH] using rev_ind.
  - exists "". split_and!; [by destruct name|done|by destruct name].
  - rewrite getOutputStream_snoc. by apply outputStep_TextInvariant.
Qed.

(** X21.  [getOutputStream] neither invents nor reorders output: whatever
    the process notifies, the messages of a pipe, put together, are the
    start of what the process wrote to that pipe.  While the stream runs
    and the pipe is open, what is still missing is the unfinished line
    that is held back, and without line splitting nothing is missing. *)
Theorem messages_are_the_start_of_the_output options events name :
  ∃ rest,
    joinAll (dataOf name events) =
    joinAll (chunksOf name (messages (getOutputStream options events)))
    +:+ rest ∧
    (status (getOutputStream options events) = Running →
     ended (pipe name (getOutputStream options events)) = false →
     rest = current (pipe name (getOutputStream options events)) ∧
     (chunkByLines options = false → rest = "")).
Proof.
  destruct (getOutputStream_TextInvariant options events name)
    as (rest & Hrest & Hall & Hraw).
  exists (current (pipe name (getOutputStream options events)) +:+ rest).
  split.
  - by rewrite <- app_assoc_s.
  - intros Hrun Hopen. rewrite (Hall Hrun Hopen), app_empty_r.
    split; [done|]. apply Hraw.
Qed.

(** * The binary of a process *)

(** X22.  On macOS [getAbsoluteBinaryPathForPid] answers from the output of
    [lsof -p]: the ninth column of the first line whose fourth column is
    [txt], whatever the whitespace between the columns, so that a path with
    whitespace in it is cut at that whitespace; and nothing when no line
    has [txt] there.  On Linux the answer is the output of [realpath] as it
    is, and on other platforms there is none. *)
Theorem getAbsoluteBinaryPathForPid_reads_lsof run p :
  (∀ lines,
     run "/usr/sbin/lsof" ["-p"; pretty p] = Some (linesText lines) →
     Forall wellSpaced lines →
     getAbsoluteBinaryPathForPid "darwin" run p =
     head (filter (λ l, lineColumns l !! 3 = Some "txt") lines) ≫=
       (λ l, lineColumns l !! 8)) ∧
  getAbsoluteBinaryPathForPid "linux" run p =
    run "/bin/realpath" ["-q"; "-e"; "/proc/" +:+ pretty p +:+ "/exe"] ∧
  (∀ platform, platform ≠ "linux" → platform ≠ "darwin" →
     getAbsoluteBinaryPathForPid platform run p = None).
Proof.
  split_and!.
  - intros lines Hrun Hlines.
    unfold getAbsoluteBinaryPathForPid, _getDarwinBinaryPathForPid.
    simpl. rewrite Hrun, splitChar_linesText by done.
    rewrite fmap_app, filter_app. simpl.
    rewrite filter_cons_False, filter_nil, app_nil_r by done. clear Hrun.
    induction Hlines as [|l lines (Hlead & Htrail & Hfirst & Hmore) _ IH];
      [done|].
    rewrite !fmap_cons, columnsOf_lineText_whitespace
      by (done || by apply blank_whitespace).
    destruct (decide (lineColumns l !! 3 = Some "txt")) as [Htxt|Htxt].
    + by rewrite !filter_cons_True by done.
    + rewrite !filter_cons_False by done. apply IH.
  - done.
  - intros platform Hlinux Hdarwin. unfold getAbsoluteBinaryPathForPid.
    by rewrite (proj2 (String.eqb_neq _ _) Hlinux),
               (proj2 (String.eqb_neq _ _) Hdarwin).
Qed.

Lemma getAbsoluteBinaryPathForPid_reads_lsof_witness :
  getAbsoluteBinaryPathForPid "darwin"
    (λ _ _, Some (linesText lsofExample)) 77 =
  head (filter (λ l, lineColumns l !! 3 = Some "txt") lsofExample) ≫=
    (λ l, lineColumns l !! 8).
Proof.
  apply (proj1 (getAbsoluteBinaryPathForPid_reads_lsof
                  (λ _ _, Some (linesText lsofExample)) 77) lsofExample).
  - done.
  - repeat (constructor; [layout|]). constructor.
Defined.

(** * Messages for exits *)

(** X23.  [exitEventToMessage] fails only for an event with neither exit
    code nor signal, which no process reports; and on the exits that
    processes report (exactly one of exit code and signal) it tells every
    two of them apart. *)
Theorem exitEventToMessage_tells_exits_apart :
  (∀ event,
     exitEventToMessage event = None ↔
     exitCode event = None ∧ signal event = None) ∧
  (∀ event, nodeExit event → is_Some (exitEventToMessage event)) ∧
  (∀ event1 event2,
     nodeExit event1 → nodeExit event2 →
     exitEventToMessage event1 = exitEventToMessage event2 →
     event1 = event2).
Proof.
  split_and!.
  - intros [[c|] [s|]]; unfold exitEventToMessage; simpl; split;
      (done || by intros [? ?]).
  - intros [[c|] [s|]] [[Hc Hs]|[Hc Hs]]; unfold exitEventToMessage;
      simpl in *; done.
  - intros [[c1|] [s1|]] [[c2|] [s2|]] [[Hc1 Hs1]|[Hc1 Hs1]]
      [[Hc2 Hs2]|[Hc2 Hs2]]; unfold exitEventToMessage; simpl in *;
      try done.
    + intros [= Hpretty]. by apply (inj pretty) in Hpretty as ->.
    + by intros [= ->].
Qed.

(** * Every descendant is listed once *)



Section Once.
Variable processes : list ProcessInfo.
Variable root : ProcessInfo.
Hypothesis pids_distinct : NoDup (pid <$> processes).
Hypothesis root_listed : root ∈ processes.









End Once.


